(** * Lamport logical clocks: a shallow embedding of
      [paradigms/distributed/lamport/scripts/lamport_clock.py]

    The Python classes [LamportClock] and [DistributedSystem] are rendered as
    records and state-passing functions.  Python integers are unbounded, so
    timestamps live in [Z]; strings are [string]; the [processes] dictionary,
    whose iteration order is its insertion order, is an association list;
    [pending_messages] and [delivered_messages] are lists.  A method that may
    raise returns the state it leaves behind together with either the
    exception or the value. *)

From Stdlib Require Import ZArith List String Ascii Bool Lia.
From Stdlib Require Import Permutation Sorted DecimalString OrderedTypeEx.
From Stdlib Require Decimal DecimalZ DecimalPos.
Import ListNotations.

Local Open Scope string_scope.
Local Open Scope Z_scope.

(** ** Python primitives used by the script *)

Module Py.

(** [str(n)] for an integer. *)
Definition str_of_int (n : Z) : string :=
  NilZero.string_of_int (Z.to_int n).

(** Exceptions the script can raise: a failed dictionary lookup and the
    explicit [ValueError] of [deliver_message]. *)
Inductive exn : Type :=
| KeyError (key : string)
| ValueError (msg : string).

Inductive result (A : Type) : Type :=
| Raise (e : exn)
| Return (a : A).
Arguments Raise {A} e.
Arguments Return {A} a.

Definition raises {A : Type} (r : result A) : Prop :=
  exists e, r = Raise e.

(** Dictionaries with string keys, in insertion order. *)
Section Dict.
Context {V : Type}.

Definition dict := list (string * V).

Fixpoint dict_get (d : dict) (k : string) : option V :=
  match d with
  | [] => None
  | (k', v) :: d' => if String.eqb k' k then Some v else dict_get d' k
  end.

(** [d[k] = v]: an existing key keeps its position. *)
Fixpoint dict_set (d : dict) (k : string) (v : V) : dict :=
  match d with
  | [] => [(k, v)]
  | (k', v') :: d' =>
      if String.eqb k' k then (k', v) :: d'
      else (k', v') :: dict_set d' k v
  end.

Definition dict_keys (d : dict) : list string := map fst d.
Definition dict_values (d : dict) : list V := map snd d.
End Dict.
Arguments dict V : clear implicits.

(** [x in l] and [l.remove(x)] for a list, over an equality test. *)
Section ListOps.
Context {A : Type} (eqb : A -> A -> bool).

Fixpoint list_contains (x : A) (l : list A) : bool :=
  match l with
  | [] => false
  | y :: l' => if eqb y x then true else list_contains x l'
  end.

Fixpoint list_remove (x : A) (l : list A) : list A :=
  match l with
  | [] => []
  | y :: l' => if eqb y x then l' else y :: list_remove x l'
  end.
End ListOps.

(** [sorted(l, key=...)]: a stable sort that only asks whether one key is
    strictly below another.  Stability fixes the output as a function of the
    input, so a stable insertion sort computes the same list. *)
Section Sorted.
Context {A : Type} (ltb : A -> A -> bool).

Fixpoint insert (x : A) (l : list A) : list A :=
  match l with
  | [] => [x]
  | y :: l' => if ltb x y then x :: y :: l' else y :: insert x l'
  end.

Definition sorted (l : list A) : list A :=
  fold_left (fun acc x => insert x acc) l [].
End Sorted.

End Py.
Export Py.

(** ** Events and messages *)

Inductive EventType : Type := LOCAL | SEND | RECEIVE.

Definition EventType_eqb (a b : EventType) : bool :=
  match a, b with
  | LOCAL, LOCAL | SEND, SEND | RECEIVE, RECEIVE => true
  | _, _ => false
  end.

Record Event : Type := mkEvent {
  ev_process_id : string;
  ev_event_type : EventType;
  ev_timestamp : Z;
  ev_description : string;
  ev_message_id : option string
}.

Record Message : Type := mkMessage {
  msg_id : string;
  msg_sender : string;
  msg_receiver : string;
  msg_timestamp : Z;
  msg_content : string
}.

(** The [__eq__] a dataclass derives: all fields, in order. *)
Definition Message_eqb (a b : Message) : bool :=
  String.eqb (msg_id a) (msg_id b)
  && String.eqb (msg_sender a) (msg_sender b)
  && String.eqb (msg_receiver a) (msg_receiver b)
  && Z.eqb (msg_timestamp a) (msg_timestamp b)
  && String.eqb (msg_content a) (msg_content b).

(** ** LamportClock *)

Record LamportClock : Type := mkClock {
  process_id : string;
  time : Z;
  events : list Event
}.

Module Clock.

Definition init (pid : string) : LamportClock :=
  {| process_id := pid; time := 0; events := [] |}.

(** The f-string [f"{self.process_id}-{self.time}"] naming a message. *)
Definition message_id_of (pid : string) (t : Z) : string :=
  pid ++ "-" ++ str_of_int t.

Definition local_event (c : LamportClock) (description : string)
  : LamportClock * Event :=
  let t := time c + 1 in
  let event := {| ev_process_id := process_id c;
                  ev_event_type := LOCAL;
                  ev_timestamp := t;
                  ev_description := description;
                  ev_message_id := None |} in
  ({| process_id := process_id c; time := t;
      events := events c ++ [event] |}, event).

Definition send (c : LamportClock) (receiver content : string)
  : LamportClock * (Event * Message) :=
  let t := time c + 1 in
  let message := {| msg_id := message_id_of (process_id c) t;
                    msg_sender := process_id c;
                    msg_receiver := receiver;
                    msg_timestamp := t;
                    msg_content := content |} in
  let event := {| ev_process_id := process_id c;
                  ev_event_type := SEND;
                  ev_timestamp := t;
                  ev_description :=
                    "Send to " ++ receiver ++ ": " ++ content;
                  ev_message_id := Some (msg_id message) |} in
  ({| process_id := process_id c; time := t;
      events := events c ++ [event] |}, (event, message)).

Definition receive (c : LamportClock) (message : Message)
  : LamportClock * Event :=
  let t := Z.max (time c) (msg_timestamp message) + 1 in
  let event := {| ev_process_id := process_id c;
                  ev_event_type := RECEIVE;
                  ev_timestamp := t;
                  ev_description :=
                    "Receive from " ++ msg_sender message ++ ": "
                      ++ msg_content message;
                  ev_message_id := Some (msg_id message) |} in
  ({| process_id := process_id c; time := t;
      events := events c ++ [event] |}, event).

(** The three methods, as a script run against one clock. *)
Inductive op : Type :=
| OpLocal (description : string)
| OpSend (receiver content : string)
| OpReceive (message : Message).

Definition step (c : LamportClock) (o : op) : LamportClock :=
  match o with
  | OpLocal d => fst (local_event c d)
  | OpSend r x => fst (send c r x)
  | OpReceive m => fst (receive c m)
  end.

Definition run (ops : list op) (c : LamportClock) : LamportClock :=
  fold_left step ops c.

End Clock.

(** ** DistributedSystem *)

Record DistributedSystem : Type := mkSystem {
  processes : dict LamportClock;
  pending_messages : list Message;
  delivered_messages : list Message
}.

Module System.

(** A method call: the state it leaves and what it raised or returned.
    An exception does not undo the mutations made before it. *)
Definition M (A : Type) : Type :=
  DistributedSystem -> DistributedSystem * result A.

Definition ret {A : Type} (a : A) : M A := fun s => (s, Return a).

Definition bind {A B : Type} (c : M A) (k : A -> M B) : M B :=
  fun s =>
    match c s with
    | (s', Raise e) => (s', Raise e)
    | (s', Return a) => k a s'
    end.

Notation "x <- c ;; k" := (bind c (fun x => k))
  (at level 61, c at next level, right associativity).

Definition with_processes (s : DistributedSystem)
    (d : dict LamportClock) : DistributedSystem :=
  {| processes := d;
     pending_messages := pending_messages s;
     delivered_messages := delivered_messages s |}.

(** [DistributedSystem(process_ids)]: the dictionary comprehension assigns
    every id in turn, so a repeated id keeps one entry. *)
Definition init (process_ids : list string) : DistributedSystem :=
  {| processes :=
       fold_left (fun d pid => dict_set d pid (Clock.init pid))
                 process_ids [];
     pending_messages := [];
     delivered_messages := [] |}.

(** The constructor seen as a call, like the other methods. *)
Definition construct (process_ids : list string)
  : result DistributedSystem :=
  Return (init process_ids).

Definition local_event (pid description : string) : M Event :=
  fun s =>
    match dict_get (processes s) pid with
    | None => (s, Raise (KeyError pid))
    | Some c =>
        let (c', event) := Clock.local_event c description in
        (with_processes s (dict_set (processes s) pid c'), Return event)
    end.

Definition send_message (sender receiver content : string) : M Message :=
  fun s =>
    match dict_get (processes s) sender with
    | None => (s, Raise (KeyError sender))
    | Some c =>
        let '(c', (_, message)) := Clock.send c receiver content in
        ({| processes := dict_set (processes s) sender c';
            pending_messages := pending_messages s ++ [message];
            delivered_messages := delivered_messages s |},
         Return message)
    end.

Definition deliver_message (message : Message) : M Event :=
  fun s =>
    if list_contains Message_eqb message (pending_messages s) then
      let s1 :=
        {| processes := processes s;
           pending_messages :=
             list_remove Message_eqb message (pending_messages s);
           delivered_messages := delivered_messages s ++ [message] |} in
      match dict_get (processes s1) (msg_receiver message) with
      | None => (s1, Raise (KeyError (msg_receiver message)))
      | Some c =>
          let (c', event) := Clock.receive c message in
          (with_processes s1
             (dict_set (processes s1) (msg_receiver message) c'),
           Return event)
      end
    else
      (s, Raise (ValueError
                   ("Message " ++ msg_id message
                      ++ " not in pending queue"))).

(** [random.choice(seq)] reads [seq] at an index below its length; the
    generator is the stream [rng] of its raw draws. *)
Definition choice {A : Type} (draw : nat) (seq : list A) (dflt : A) : A :=
  nth (draw mod List.length seq) seq dflt.

(** The [while] loop of [deliver_all_pending], from its [k]-th draw on.
    [None] means the fuel ran out before the loop ended. *)
Fixpoint deliver_all_loop (fuel : nat) (rng : nat -> nat) (k : nat)
    (s : DistributedSystem) : option (DistributedSystem * result unit) :=
  match pending_messages s with
  | [] => Some (s, Return tt)
  | m0 :: _ =>
      match fuel with
      | O => None
      | S fuel' =>
          let message := choice (rng k) (pending_messages s) m0 in
          match deliver_message message s with
          | (s', Raise e) => Some (s', Raise e)
          | (s', Return _) => deliver_all_loop fuel' rng (S k) s'
          end
      end
  end.

Definition deliver_all_pending (fuel : nat) (rng : nat -> nat)
    (s : DistributedSystem) : option (DistributedSystem * result unit) :=
  deliver_all_loop fuel rng 0%nat s.

(** The sort key [(e.timestamp, e.process_id)] under Python's tuple
    comparison: the first differing component decides. *)
Definition key_ltb (a b : Event) : bool :=
  if ev_timestamp a =? ev_timestamp b
  then String.ltb (ev_process_id a) (ev_process_id b)
  else ev_timestamp a <? ev_timestamp b.

Definition all_events (s : DistributedSystem) : list Event :=
  flat_map events (dict_values (processes s)).

Definition get_global_history (s : DistributedSystem) : list Event :=
  sorted key_ltb (all_events s).

(** The two searches of [verify_causality]: the first event carrying the
    message id with the wanted type. *)
Definition matches (mid : string) (ty : EventType) (e : Event) : bool :=
  match ev_message_id e with
  | Some i => String.eqb i mid
  | None => false
  end && EventType_eqb (ev_event_type e) ty.

Definition find_event (mid : string) (ty : EventType)
    (evs : list Event) : option Event :=
  find (matches mid ty) evs.

Definition violation (send_event recv_event : Event) : string :=
  "Causality violation: send@" ++ str_of_int (ev_timestamp send_event)
    ++ " -> receive@" ++ str_of_int (ev_timestamp recv_event).

Fixpoint verify_loop (s : DistributedSystem) (msgs : list Message)
    (violations : list string) : result (list string) :=
  match msgs with
  | [] => Return violations
  | message :: rest =>
      match dict_get (processes s) (msg_sender message) with
      | None => Raise (KeyError (msg_sender message))
      | Some sc =>
          let send_event := find_event (msg_id message) SEND (events sc) in
          match dict_get (processes s) (msg_receiver message) with
          | None => Raise (KeyError (msg_receiver message))
          | Some rc =>
              let recv_event :=
                find_event (msg_id message) RECEIVE (events rc) in
              verify_loop s rest
                match send_event, recv_event with
                | Some se, Some re =>
                    if ev_timestamp re <=? ev_timestamp se
                    then (violations ++ [violation se re])%list
                    else violations
                | _, _ => violations
                end
          end
      end
  end.

Definition verify_causality (s : DistributedSystem)
  : result (list string) :=
  verify_loop s (delivered_messages s) [].

(** The scenario of [demo()], returning the three RECEIVE events. *)
Definition demo : M (Event * Event * Event) :=
  _ <- local_event "A" "Start computation" ;;
  msg1 <- send_message "A" "B" "Hello B" ;;
  _ <- local_event "B" "Initialize" ;;
  _ <- local_event "B" "Process data" ;;
  r1 <- deliver_message msg1 ;;
  msg2 <- send_message "B" "C" "Forward to C" ;;
  _ <- local_event "C" "Startup" ;;
  r2 <- deliver_message msg2 ;;
  msg3 <- send_message "C" "A" "Response to A" ;;
  _ <- local_event "A" "Continue processing" ;;
  r3 <- deliver_message msg3 ;;
  ret (r1, r2, r3).

Definition demo_system : DistributedSystem := init ["A"; "B"; "C"].

(** Scripts of calls on the public methods that change the state. *)
Inductive op : Type :=
| OpLocal (pid description : string)
| OpSend (sender receiver content : string)
| OpDeliver (message : Message).

Definition call (o : op) : M unit :=
  match o with
  | OpLocal p d => _ <- local_event p d ;; ret tt
  | OpSend a b x => _ <- send_message a b x ;; ret tt
  | OpDeliver m => _ <- deliver_message m ;; ret tt
  end.

(** A caller may catch an exception and go on, so the state a failed call
    leaves is the one the next call starts from. *)
Definition step (s : DistributedSystem) (o : op) : DistributedSystem :=
  fst (call o s).

Definition run (ops : list op) (s : DistributedSystem)
  : DistributedSystem :=
  fold_left step ops s.

Definition reachable (s : DistributedSystem) : Prop :=
  exists process_ids ops, s = run ops (init process_ids).

(** The messages a script created: what its successful [send_message]
    calls returned, in order. *)
Fixpoint created (ops : list op) (s : DistributedSystem) : list Message :=
  match ops with
  | [] => []
  | o :: ops' =>
      match o with
      | OpSend a b x =>
          match send_message a b x s with
          | (_, Return m) => [m]
          | (_, Raise _) => []
          end
      | _ => []
      end ++ created ops' (step s o)
  end.

End System.


Import System.

Definition demo_final : DistributedSystem := fst (demo demo_system).

Definition demo_receives : list Event :=
  match snd (demo demo_system) with
  | Return (r1, r2, r3) => [r1; r2; r3]
  | Raise _ => []
  end.

(** The calls of [demo()] as a script, its messages written out. *)
Definition demo_script : list op :=
  [ OpLocal "A" "Start computation";
    OpSend "A" "B" "Hello B";
    OpLocal "B" "Initialize";
    OpLocal "B" "Process data";
    OpDeliver (mkMessage "A-2" "A" "B" 2 "Hello B");
    OpSend "B" "C" "Forward to C";
    OpLocal "C" "Startup";
    OpDeliver (mkMessage "B-4" "B" "C" 4 "Forward to C");
    OpSend "C" "A" "Response to A";
    OpLocal "A" "Continue processing";
    OpDeliver (mkMessage "C-6" "C" "A" 6 "Response to A") ].

(** ** Vocabulary of the properties *)

(** What the sort key of an event shows. *)
Definition stamp (e : Event) : Z * string :=
  (ev_timestamp e, ev_process_id e).

(** Ascending order on [(timestamp, process_id)], ties on the timestamp
    broken by the lexicographic order of the process ids. *)
Definition stamp_le (a b : Z * string) : Prop :=
  fst a < fst b \/ (fst a = fst b /\ String.leb (snd a) (snd b) = true).

Definition by_stamp (a b : Event) : Prop := stamp_le (stamp a) (stamp b).

(** No RECEIVE event stands at or before a SEND event of the same message
    id. *)
Definition send_before_receive (h : list Event) : Prop :=
  forall (i j : nat) (r e : Event) (mid : string),
    nth_error h i = Some r -> nth_error h j = Some e ->
    ev_event_type r = RECEIVE -> ev_event_type e = SEND ->
    ev_message_id r = Some mid -> ev_message_id e = Some mid ->
    (j < i)%nat.

(** Two events of one process stand in [h] as they stand in its log. *)
Definition keeps_local_order (s : DistributedSystem) (h : list Event)
  : Prop :=
  forall (k : string) (c : LamportClock) (a b i j : nat) (e1 e2 : Event),
    In (k, c) (processes s) ->
    nth_error (events c) a = Some e1 -> nth_error (events c) b = Some e2 ->
    (a < b)%nat ->
    nth_error h i = Some e1 -> nth_error h j = Some e2 ->
    (i < j)%nat.

Definition registered (s : DistributedSystem) (pid : string) : Prop :=
  dict_get (processes s) pid <> None.

(** The error of [deliver_message] for a message that is not pending. *)
Definition not_pending_error (message : Message) : exn :=
  ValueError ("Message " ++ msg_id message ++ " not in pending queue").

(** Whether a character occurs in a string. *)
Fixpoint occurs (a : ascii) (s : string) : bool :=
  match s with
  | EmptyString => false
  | String b s' => Ascii.eqb b a || occurs a s'
  end.

(** ** Invariants of the reachable states *)

(** The log is in strictly increasing timestamp order and the clock has
    reached every timestamp in it. *)
Definition ordered (c : LamportClock) : Prop :=
  StronglySorted Z.lt (map ev_timestamp (events c))
  /\ Forall (fun e => ev_timestamp e <= time c) (events c).

(** An event in the log of process [k]: a SEND names the message by its
    own process and timestamp, a RECEIVE names a message sent earlier on
    the logical clock. *)
Definition event_ok (k : string) (e : Event) : Prop :=
  ev_process_id e = k /\ 0 < ev_timestamp e /\
  match ev_event_type e with
  | LOCAL => True
  | SEND => ev_message_id e = Some (Clock.message_id_of k (ev_timestamp e))
  | RECEIVE =>
      exists p t, ev_message_id e = Some (Clock.message_id_of p t)
                  /\ 0 < t < ev_timestamp e
  end.

Definition clock_ok (k : string) (c : LamportClock) : Prop :=
  process_id c = k /\ 0 <= time c /\ ordered c
  /\ Forall (event_ok k) (events c).

(** A message in flight or delivered was sent by a registered process, at
    a time its clock has passed. *)
Definition message_ok (d : dict LamportClock) (m : Message) : Prop :=
  msg_id m = Clock.message_id_of (msg_sender m) (msg_timestamp m)
  /\ 0 < msg_timestamp m
  /\ exists c, dict_get d (msg_sender m) = Some c
               /\ msg_timestamp m <= time c.

Definition origin (m : Message) : string * Z :=
  (msg_sender m, msg_timestamp m).

Definition all_messages (s : DistributedSystem) : list Message :=
  (pending_messages s ++ delivered_messages s)%list.

Record consistent (s : DistributedSystem) : Prop := {
  clocks_ok : forall k c, In (k, c) (processes s) -> clock_ok k c;
  messages_ok : Forall (message_ok (processes s)) (all_messages s);
  origins_distinct : NoDup (map origin (all_messages s))
}.

(** ** The timeline and the random simulation *)

Module Timeline.

(** [len(s)]: a string is held as its UTF-8 bytes, and its length is the
    number of its code points, the bytes that are not continuation
    bytes. *)
Definition is_continuation (a : ascii) : bool :=
  (128 <=? nat_of_ascii a)%nat && (nat_of_ascii a <? 192)%nat.

Fixpoint len (s : string) : nat :=
  match s with
  | EmptyString => O
  | String a s' => ((if is_continuation a then 0 else 1) + len s')%nat
  end.

(** [s * n]. *)
Fixpoint times (s : string) (n : nat) : string :=
  match n with
  | O => ""
  | S n' => s ++ times s n'
  end.

(** [f"{s:^w}"]: centred, the odd space on the right. *)
Definition center (s : string) (w : nat) : string :=
  let pad := (w - len s)%nat in
  let left := (pad / 2)%nat in
  times " " left ++ s ++ times " " (pad - left).

(** [f"{n:w}"] for an integer: flush right. *)
Definition right_int (n : Z) (w : nat) : string :=
  times " " (w - len (str_of_int n)) ++ str_of_int n.

Definition newline : string := String "010" "".

(** The lookup [{"local": ..., "send": ..., "receive": ...}] on
    [e.event_type.value]. *)
Definition symbol (ty : EventType) : string :=
  match ty with
  | LOCAL => "●"
  | SEND => "→"
  | RECEIVE => "←"
  end.

(** The comprehension [events_at_t]. *)
Definition events_at (history : list Event) (t : Z) (pid : string)
  : list Event :=
  filter (fun e => (ev_timestamp e =? t)
                   && String.eqb (ev_process_id e) pid) history.

(** What one process adds to the row of time [t]. *)
Definition cell (history : list Event) (t : Z) (pid : string) : string :=
  match events_at history t pid with
  | e :: _ => " " ++ center (symbol (ev_event_type e)) 12 ++ " |"
  | [] => " " ++ center "" 12 ++ " |"
  end.

Definition row (history : list Event) (process_ids : list string) (t : Z)
  : string :=
  fold_left (fun r pid => r ++ cell history t pid) process_ids
            (" " ++ right_int t 2 ++ "  |").

Definition header (process_ids : list string) : string :=
  fold_left (fun h pid => h ++ " " ++ center pid 12 ++ " |") process_ids
            "Time |".

(** [max(e.timestamp for e in history) if history else 0]. *)
Definition max_time (history : list Event) : Z :=
  match history with
  | [] => 0
  | e :: rest => fold_left Z.max (map ev_timestamp rest) (ev_timestamp e)
  end.

(** [range(1, stop + 1)]. *)
Definition range1 (stop : Z) : list Z :=
  map (fun i => Z.of_nat i + 1) (seq 0 (Z.to_nat stop)).

(** [print_timeline]: the lines it prints, one per [print] call. *)
Definition print_timeline (s : DistributedSystem) : list string :=
  let process_ids := sorted String.ltb (dict_keys (processes s)) in
  let history := get_global_history s in
  ([(newline ++ times "=" 60)%string;
    "LAMPORT CLOCK TIMELINE";
    times "=" 60;
    header process_ids;
    times "-" (len (header process_ids))]
   ++ map (row history process_ids) (range1 (max_time history))
   ++ [times "=" 60;
       (newline
          ++ "Legend: ● = local event, → = send, ← = receive")%string]
  )%list.

End Timeline.

Module Simulation.



(** [[f"P{i}" for i in range(num_processes)]]. *)
Definition process_ids (num_processes : Z) : list string :=
  map (fun i => "P" ++ str_of_int (Z.of_nat i))
      (seq 0 (Z.to_nat num_processes)).






End Simulation.

(** ** Further invariants of the reachable states *)

(** Every message has its SEND event in the log of its sender, and every
    delivered message whose receiver is registered has a RECEIVE event in
    the log of its receiver. *)
Definition sent_in_log (d : dict LamportClock) (m : Message) : Prop :=
  exists c e, dict_get d (msg_sender m) = Some c /\ In e (events c)
              /\ ev_event_type e = SEND
              /\ ev_message_id e = Some (msg_id m).

Definition received_in_log (d : dict LamportClock) (m : Message) : Prop :=
  forall c, dict_get d (msg_receiver m) = Some c ->
    exists e, In e (events c) /\ ev_event_type e = RECEIVE
              /\ ev_message_id e = Some (msg_id m).

Record traced (s : DistributedSystem) : Prop := {
  sends_traced : Forall (sent_in_log (processes s)) (all_messages s);
  receives_traced :
    Forall (received_in_log (processes s)) (delivered_messages s)
}.

(** One clock of a later state continues a clock of an earlier one: the
    same process, a log that extends the earlier log, a time not below. *)
Definition continues (c c' : LamportClock) : Prop :=
  process_id c' = process_id c /\ time c <= time c'
  /\ exists l, events c' = (events c ++ l)%list.

(** Scripts on one clock without [receive]. *)
Definition no_receive (o : Clock.op) : bool :=
  match o with
  | Clock.OpReceive _ => false
  | _ => true
  end.

(** * Properties *)

(** ** Lists *)

Section ListFacts.

Lemma StronglySorted_snoc (l : list Z) (x : Z) :
  StronglySorted Z.lt l -> Forall (fun y => y < x) l ->
  StronglySorted Z.lt (l ++ [x]).
Proof.
  induction l as [|a l IH]; intros Hs Hf; cbn.
  - repeat constructor.
  - inversion Hs; subst. inversion Hf; subst.
    constructor; [now apply IH|].
    apply Forall_app; split; [assumption|now constructor].
Qed.

Lemma Message_eqb_eq (a b : Message) : Message_eqb a b = true <-> a = b.
Proof.
  unfold Message_eqb. split.
  - intros H.
    repeat (apply andb_true_iff in H; destruct H as [H ?]).
    destruct a, b; cbn in *.
    repeat match goal with
           | E : String.eqb _ _ = true |- _ => apply String.eqb_eq in E
           | E : Z.eqb _ _ = true |- _ => apply Z.eqb_eq in E
           end.
    now subst.
  - intros ->. now rewrite !String.eqb_refl, Z.eqb_refl.
Qed.

Lemma Message_eqb_refl (a : Message) : Message_eqb a a = true.
Proof. now apply Message_eqb_eq. Qed.

Lemma Message_eq_dec (a b : Message) : {a = b} + {a <> b}.
Proof.
  destruct (Message_eqb a b) eqn:E.
  - left. now apply Message_eqb_eq.
  - right. intros H. apply Message_eqb_eq in H. congruence.
Qed.

Lemma list_contains_In (m : Message) (l : list Message) :
  list_contains Message_eqb m l = true <-> In m l.
Proof.
  induction l as [|y l IH]; cbn; [intuition discriminate|].
  destruct (Message_eqb y m) eqn:E.
  - apply Message_eqb_eq in E. intuition.
  - rewrite IH. split; [now right|].
    intros [->|H]; [|exact H].
    now rewrite Message_eqb_refl in E.
Qed.

Lemma list_contains_not_In (m : Message) (l : list Message) :
  list_contains Message_eqb m l = false <-> ~ In m l.
Proof.
  rewrite <- list_contains_In.
  destruct (list_contains Message_eqb m l); intuition congruence.
Qed.

Lemma list_remove_perm (m : Message) (l : list Message) :
  In m l -> Permutation l (m :: list_remove Message_eqb m l).
Proof.
  induction l as [|y l IH]; cbn; [tauto|].
  intros H. destruct (Message_eqb y m) eqn:E.
  - apply Message_eqb_eq in E. now subst.
  - destruct H as [->|H]; [now rewrite Message_eqb_refl in E|].
    rewrite perm_swap. now constructor; apply IH.
Qed.

Lemma list_remove_length (m : Message) (l : list Message) :
  In m l ->
  List.length l = S (List.length (list_remove Message_eqb m l)).
Proof.
  intros H. now rewrite (Permutation_length (list_remove_perm m l H)).
Qed.

Lemma list_remove_NoDup (m : Message) (l : list Message) :
  NoDup l -> ~ In m (list_remove Message_eqb m l).
Proof.
  intros Hn Hin. destruct (in_dec Message_eq_dec m l) as [Hm|Hm].
  - pose proof (list_remove_perm m l Hm) as P.
    apply (Permutation_NoDup P) in Hn. now inversion Hn.
  - apply Hm. clear Hn Hm. induction l as [|y l IH]; cbn in *; [tauto|].
    destruct (Message_eqb y m); [now right|].
    destruct Hin; [now left|right; auto].
Qed.

Lemma list_remove_incl (m x : Message) (l : list Message) :
  In x (list_remove Message_eqb m l) -> In x l.
Proof.
  induction l as [|y l IH]; cbn; [tauto|].
  destruct (Message_eqb y m); [now right|].
  intros [H|H]; [now left|right; auto].
Qed.

Lemma StronglySorted_nth {A : Type} (R : A -> A -> Prop) (l : list A)
    (i j : nat) (a b : A) :
  StronglySorted R l -> (i < j)%nat ->
  nth_error l i = Some a -> nth_error l j = Some b -> R a b.
Proof.
  intros Hs. revert i j.
  induction Hs as [|x l Hs IH Hf]; intros i j Hij Ha Hb.
  - now destruct i.
  - destruct j as [|j]; [lia|]. cbn in Hb.
    destruct i as [|i]; cbn in Ha.
    + injection Ha as <-. rewrite Forall_forall in Hf.
      apply Hf. now apply nth_error_In in Hb.
    + apply (IH i j); auto. lia.
Qed.

End ListFacts.

(** ** One clock *)

Module ClockFacts.

Lemma ordered_init (pid : string) : ordered (Clock.init pid).
Proof. split; constructor. Qed.

Lemma ordered_append (c : LamportClock) (t : Z) (e : Event) :
  ordered c -> time c < t -> ev_timestamp e = t ->
  ordered {| process_id := process_id c; time := t;
             events := events c ++ [e] |}.
Proof.
  intros [Hs Hf] Ht He. split; cbn.
  - rewrite map_app. apply StronglySorted_snoc; [exact Hs|].
    apply Forall_map. eapply Forall_impl; [|exact Hf].
    cbn. intros a Ha. lia.
  - apply Forall_app. split.
    + eapply Forall_impl; [|exact Hf]. cbn. intros a Ha. lia.
    + constructor; [lia|constructor].
Qed.

Lemma ordered_step (c : LamportClock) (o : Clock.op) :
  ordered c -> ordered (Clock.step c o).
Proof.
  intros H. destruct o; cbn; apply ordered_append; auto; lia.
Qed.

Lemma ordered_run (ops : list Clock.op) (c : LamportClock) :
  ordered c -> ordered (Clock.run ops c).
Proof.
  revert c. induction ops as [|o ops IH]; intros c H; cbn; [exact H|].
  apply IH. now apply ordered_step.
Qed.

End ClockFacts.

(** C1, as the code runs it.  The scenario of [demo()] delivers the three
    messages at B@3, C@5 and A@7, [verify_causality()] returns the empty
    list, and [get_global_history()] has eleven entries: the ten the
    scenario is said to yield and A's second local event at (3, A). *)
Theorem demo_scenario :
  map (fun e => (stamp e, ev_event_type e)) demo_receives
    = [((3, "B"), RECEIVE); ((5, "C"), RECEIVE); ((7, "A"), RECEIVE)]
  /\ 3 = Z.max 2 2 + 1 /\ 5 = Z.max 1 4 + 1 /\ 7 = Z.max 3 6 + 1
  /\ verify_causality demo_final = Return []
  /\ map stamp (get_global_history demo_final)
     = [(1, "A"); (1, "B"); (1, "C"); (2, "A"); (2, "B"); (3, "A");
        (3, "B"); (4, "B"); (5, "C"); (6, "C"); (7, "A")].
Proof. vm_compute. repeat split. Qed.

(** C1, as stated, fails: the history of the scenario is not the ten-entry
    list, because A's event at timestamp 3 is in it. *)
Lemma demo_history_not_ten_entries :
  map stamp (get_global_history demo_final)
    <> [(1, "A"); (1, "B"); (1, "C"); (2, "A"); (2, "B");
        (3, "B"); (4, "B"); (5, "C"); (6, "C"); (7, "A")]
  /\ List.length (get_global_history demo_final) = 11%nat.
Proof. vm_compute. split; [discriminate|reflexivity]. Qed.

(** C2.  [receive] sets the clock to [max(time, message.timestamp) + 1] and
    logs a RECEIVE event at that value, which is strictly above both the
    clock's previous value and the message's timestamp. *)
Theorem receive_max_plus_one (c : LamportClock) (message : Message) :
  let c' := fst (Clock.receive c message) in
  let event := snd (Clock.receive c message) in
  time c' = Z.max (time c) (msg_timestamp message) + 1
  /\ events c' = (events c ++ [event])%list
  /\ ev_event_type event = RECEIVE
  /\ ev_timestamp event = time c'
  /\ ev_message_id event = Some (msg_id message)
  /\ time c < ev_timestamp event
  /\ msg_timestamp message < ev_timestamp event
  /\ ev_timestamp event <> msg_timestamp message.
Proof. cbn. repeat split; lia. Qed.

(** C3.  Whatever script of [local_event], [send] and [receive] calls runs
    on a new clock, the timestamps of its log are strictly increasing, and
    they stay so after one more call of any of the three. *)
Theorem log_strictly_increasing (pid : string) (ops : list Clock.op) :
  StronglySorted Z.lt
    (map ev_timestamp (events (Clock.run ops (Clock.init pid))))
  /\ forall o : Clock.op,
      StronglySorted Z.lt
        (map ev_timestamp
           (events (Clock.step (Clock.run ops (Clock.init pid)) o))).
Proof.
  pose proof (ClockFacts.ordered_run ops _ (ClockFacts.ordered_init pid))
    as H.
  split; [apply H|].
  intros o. now apply ClockFacts.ordered_step.
Qed.

(** ** Message ids *)

Section MessageIds.

Lemma str_of_int_inj (t u : Z) : str_of_int t = str_of_int u -> t = u.
Proof.
  unfold str_of_int. intros H.
  apply DecimalZ.to_int_inj.
  assert (N : forall z, Z.to_int z <> Decimal.Pos Decimal.Nil
                        /\ Z.to_int z <> Decimal.Neg Decimal.Nil).
  { intros z. destruct z; cbn; split; try discriminate;
      intros E; injection E as E; revert E;
      apply DecimalPos.Unsigned.to_uint_nonnil. }
  apply (f_equal NilZero.int_of_string) in H.
  rewrite !NilZero.isi in H by apply N. congruence.
Qed.

Lemma occurs_digits (d : Decimal.uint) :
  occurs "-" (NilEmpty.string_of_uint d) = false.
Proof. induction d; cbn; auto. Qed.

Lemma occurs_str_of_int (t : Z) :
  0 <= t -> occurs "-" (str_of_int t) = false.
Proof.
  intros H. unfold str_of_int.
  destruct t; cbn; try reflexivity; [|lia].
  unfold NilZero.string_of_uint.
  destruct (Pos.to_uint p); try apply occurs_digits. reflexivity.
Qed.

Lemma occurs_app (a : ascii) (s1 s2 : string) :
  occurs a (s1 ++ s2) = occurs a s1 || occurs a s2.
Proof.
  induction s1 as [|b s1 IH]; cbn; [reflexivity|].
  now rewrite IH, orb_assoc.
Qed.

Lemma dash_split (p q d e : string) :
  occurs "-" d = false -> occurs "-" e = false ->
  p ++ "-" ++ d = q ++ "-" ++ e -> p = q /\ d = e.
Proof.
  intros Hd He. revert q.
  induction p as [|a p IH]; intros [|b q] H; cbn in H.
  - injection H as H. now split.
  - injection H as Hb H. subst d. rewrite occurs_app in Hd.
    cbn in Hd. rewrite orb_true_r in Hd. discriminate.
  - injection H as Hb H. subst e. rewrite occurs_app in He.
    cbn in He. rewrite orb_true_r in He. discriminate.
  - injection H as -> H. destruct (IH _ H) as [-> ->]. now split.
Qed.

(** A process id and a clock value name one message only. *)
Lemma message_id_of_inj (p q : string) (t u : Z) :
  0 <= t -> 0 <= u ->
  Clock.message_id_of p t = Clock.message_id_of q u -> p = q /\ t = u.
Proof.
  intros Ht Hu H. unfold Clock.message_id_of in H.
  apply dash_split in H; try now apply occurs_str_of_int.
  destruct H as [-> H]. split; [reflexivity|now apply str_of_int_inj].
Qed.

End MessageIds.

(** ** Dictionaries *)

Section DictFacts.
Context {V : Type}.
Implicit Types (d : dict V) (k : string) (v : V).

Lemma dict_get_set_eq d k v : dict_get (dict_set d k v) k = Some v.
Proof.
  induction d as [|[k' v'] d IH]; cbn.
  - now rewrite String.eqb_refl.
  - destruct (String.eqb k' k) eqn:E; cbn; now rewrite E.
Qed.

Lemma dict_get_set_neq d k k' v :
  k <> k' -> dict_get (dict_set d k v) k' = dict_get d k'.
Proof.
  intros N. induction d as [|[k0 v0] d IH]; cbn.
  - apply String.eqb_neq in N. now rewrite N.
  - destruct (String.eqb k0 k) eqn:E; cbn.
    + apply String.eqb_eq in E. subst k0.
      apply String.eqb_neq in N. now rewrite N.
    + now rewrite IH.
Qed.

Lemma dict_get_In d k v : dict_get d k = Some v -> In (k, v) d.
Proof.
  induction d as [|[k0 v0] d IH]; cbn; [discriminate|].
  destruct (String.eqb k0 k) eqn:E.
  - apply String.eqb_eq in E. intros [= ->]. left. now subst.
  - intros H. right. now apply IH.
Qed.

Lemma dict_get_keys d k : dict_get d k <> None <-> In k (dict_keys d).
Proof.
  unfold dict_keys.
  induction d as [|[k0 v0] d IH]; cbn; [intuition congruence|].
  destruct (String.eqb k0 k) eqn:E.
  - apply String.eqb_eq in E. split; [now left|discriminate].
  - apply String.eqb_neq in E. rewrite IH. intuition.
Qed.

Lemma In_dict_set d k v k' v' :
  In (k', v') (dict_set d k v) -> (k' = k /\ v' = v) \/ In (k', v') d.
Proof.
  induction d as [|[k0 v0] d IH]; cbn.
  - intros [[= <- <-]|[]]. now left.
  - destruct (String.eqb k0 k) eqn:E; cbn.
    + apply String.eqb_eq in E. subst k0.
      intros [[= <- <-]|H]; [now left|right; now right].
    + intros [H|H]; [right; now left|].
      destruct (IH H) as [?|?]; [now left|right; now right].
Qed.

Lemma dict_keys_set_old d k v :
  In k (dict_keys d) -> dict_keys (dict_set d k v) = dict_keys d.
Proof.
  unfold dict_keys.
  induction d as [|[k0 v0] d IH]; cbn; [tauto|].
  destruct (String.eqb k0 k) eqn:E; cbn; [reflexivity|].
  apply String.eqb_neq in E. intros [H|H]; [contradiction|].
  now rewrite IH.
Qed.

Lemma dict_keys_set_new d k v :
  ~ In k (dict_keys d) ->
  dict_keys (dict_set d k v) = (dict_keys d ++ [k])%list.
Proof.
  unfold dict_keys.
  induction d as [|[k0 v0] d IH]; cbn; [reflexivity|].
  intros N. destruct (String.eqb k0 k) eqn:E; cbn.
  - apply String.eqb_eq in E. tauto.
  - rewrite IH; [reflexivity|tauto].
Qed.

Lemma registered_set d k k' v :
  dict_get d k <> None ->
  (dict_get (dict_set d k v) k' <> None <-> dict_get d k' <> None).
Proof.
  intros H. apply dict_get_keys in H.
  rewrite (dict_get_keys (dict_set d k v)), (dict_get_keys d).
  now rewrite dict_keys_set_old.
Qed.

End DictFacts.

(** ** Construction *)

Section Construction.

Let assign (d : dict LamportClock) (pid : string) :=
  dict_set d pid (Clock.init pid).

Lemma init_keys_NoDup (pids : list string) (d : dict LamportClock) :
  NoDup (dict_keys d) -> NoDup (dict_keys (fold_left assign pids d)).
Proof.
  revert d.
  induction pids as [|p pids IH]; intros d H; cbn [fold_left];
    [exact H|].
  apply IH. unfold assign.
  destruct (in_dec string_dec p (dict_keys d)) as [Hin|Hin].
  - now rewrite dict_keys_set_old.
  - rewrite dict_keys_set_new by exact Hin.
    apply NoDup_app; repeat split; auto.
    + repeat constructor. cbn. tauto.
    + intros a Ha [<-|[]]. contradiction.
Qed.

Lemma init_keys_In (pids : list string) (d : dict LamportClock)
    (k : string) :
  In k (dict_keys (fold_left assign pids d))
  <-> In k (dict_keys d) \/ In k pids.
Proof.
  revert d.
  induction pids as [|p pids IH]; intros d; cbn [fold_left In];
    [tauto|].
  rewrite IH. unfold assign.
  destruct (in_dec string_dec p (dict_keys d)) as [Hin|Hin].
  - rewrite dict_keys_set_old by exact Hin.
    intuition (subst; auto).
  - rewrite dict_keys_set_new by exact Hin.
    rewrite in_app_iff. cbn. intuition.
Qed.

Lemma init_keys_distinct (pids : list string) (d : dict LamportClock) :
  NoDup (dict_keys d ++ pids) ->
  dict_keys (fold_left assign pids d) = (dict_keys d ++ pids)%list.
Proof.
  revert d. induction pids as [|p pids IH]; intros d H; cbn [fold_left].
  - now rewrite app_nil_r.
  - assert (Hp : ~ In p (dict_keys d)).
    { intros Hin. apply NoDup_remove_2 in H. apply H.
      apply in_or_app. now left. }
    assert (E : dict_keys (assign d p) = (dict_keys d ++ [p])%list)
      by now apply dict_keys_set_new.
    rewrite IH; rewrite E, <- app_assoc; [reflexivity|exact H].
Qed.

Lemma init_values (pids : list string) (d : dict LamportClock)
    (k : string) (c : LamportClock) :
  In (k, c) (fold_left assign pids d) ->
  In (k, c) d \/ (In k pids /\ c = Clock.init k).
Proof.
  revert d.
  induction pids as [|p pids IH]; intros d H; cbn [fold_left In] in *;
    [now left|].
  destruct (IH _ H) as [H'|[H1 H2]]; [|right; tauto].
  destruct (In_dict_set _ _ _ _ _ H') as [[-> ->]|?]; [right|left]; auto.
Qed.

End Construction.

(** C4, as the code runs it.  The constructor never raises: for every list
    of ids, empty or with repeats, it returns a system with one clock per
    distinct id, each new, and no messages; when the ids are distinct the
    registry holds exactly them, in the order given. *)
Theorem construct_never_fails (process_ids : list string) :
  let s := init process_ids in
  construct process_ids = Return s
  /\ NoDup (dict_keys (processes s))
  /\ (forall k, In k (dict_keys (processes s)) <-> In k process_ids)
  /\ (forall k c, In (k, c) (processes s) -> c = Clock.init k)
  /\ pending_messages s = [] /\ delivered_messages s = []
  /\ (NoDup process_ids -> dict_keys (processes s) = process_ids).
Proof.
  intros s. subst s. unfold construct, init.
  cbn [processes pending_messages delivered_messages].
  split; [reflexivity|].
  split; [apply init_keys_NoDup; constructor|].
  split; [intros k; rewrite init_keys_In; cbn; tauto|].
  split; [intros k c H; apply init_values in H; cbn in H; tauto|].
  split; [reflexivity|]. split; [reflexivity|].
  intros H. now rewrite init_keys_distinct.
Qed.

(** The ids of [demo()] are distinct. *)
Lemma construct_never_fails_witness :
  NoDup ["A"; "B"; "C"]
  /\ dict_keys (processes (init ["A"; "B"; "C"])) = ["A"; "B"; "C"].
Proof.
  assert (H : NoDup ["A"; "B"; "C"]).
  { repeat constructor; cbn; intuition discriminate. }
  split; [exact H|].
  exact (proj2 (proj2 (proj2 (proj2 (proj2 (proj2
           (construct_never_fails ["A"; "B"; "C"])))))) H).
Defined.

(** C4, as stated, fails: neither the empty list of ids nor a list with a
    repeated id makes the constructor raise. *)
Lemma construct_accepts_empty_and_duplicates :
  ~ raises (construct [])
  /\ ~ raises (construct ["A"; "A"])
  /\ construct [] = Return (mkSystem [] [] [])
  /\ construct ["A"; "A"] = Return (mkSystem [("A", Clock.init "A")] [] []).
Proof.
  repeat split; try reflexivity; intros [e H]; discriminate.
Qed.

(** C5, as the code runs it.  [send_message] raises, a [KeyError] that
    leaves the system as it was, exactly when the sender is not registered;
    the receiver is not looked up.  With a registered sender it performs the
    sender's [send], returns its message and appends it to the pending
    list, also when the receiver is the sender itself. *)
Theorem send_message_checks_sender_only
    (s : DistributedSystem) (sender receiver content : string) :
  let out := send_message sender receiver content s in
  (raises (snd out) <-> dict_get (processes s) sender = None)
  /\ match dict_get (processes s) sender with
     | None => out = (s, Raise (KeyError sender))
     | Some c =>
         let c' := fst (Clock.send c receiver content) in
         let event := fst (snd (Clock.send c receiver content)) in
         let message := snd (snd (Clock.send c receiver content)) in
         snd out = Return message
         /\ processes (fst out) = dict_set (processes s) sender c'
         /\ pending_messages (fst out)
            = (pending_messages s ++ [message])%list
         /\ delivered_messages (fst out) = delivered_messages s
         /\ events c' = (events c ++ [event])%list
         /\ ev_event_type event = SEND
         /\ ev_timestamp event = msg_timestamp message
         /\ ev_message_id event = Some (msg_id message)
         /\ msg_timestamp message = time c + 1
         /\ msg_sender message = process_id c
         /\ msg_receiver message = receiver
         /\ msg_content message = content
     end.
Proof.
  unfold send_message. cbn.
  destruct (dict_get (processes s) sender) as [c|]; cbn.
  - split; [|repeat split].
    split; [intros [e H]; discriminate|discriminate].
  - split; [|reflexivity]. split; [reflexivity|]. intros _. now eexists.
Qed.

(** C5, as stated, fails: a message to an id that is not registered is
    sent all the same, and waits in the pending list. *)
Lemma send_message_to_unregistered_receiver :
  let s := init ["A"] in
  let out := send_message "A" "Z" "x" s in
  dict_get (processes s) "Z" = None
  /\ ~ raises (snd out)
  /\ snd out = Return (mkMessage "A-1" "A" "Z" 1 "x")
  /\ pending_messages (fst out) = [mkMessage "A-1" "A" "Z" 1 "x"].
Proof.
  cbn. repeat split. intros [e H]. discriminate.
Qed.

(** ** The invariant of the reachable states *)

Section Invariant.

Lemma clock_ok_append (k : string) (c : LamportClock) (t : Z)
    (e : Event) :
  clock_ok k c -> time c < t -> ev_timestamp e = t -> event_ok k e ->
  clock_ok k {| process_id := process_id c; time := t;
                events := events c ++ [e] |}.
Proof.
  intros (Hp & Ht & Ho & He) Hlt Hts Hev.
  split; [exact Hp|]. split; [cbn; lia|].
  split; [now apply ClockFacts.ordered_append|].
  cbn. apply Forall_app. split; [exact He|now constructor].
Qed.

Lemma clock_ok_local (k : string) (c : LamportClock) (d : string) :
  clock_ok k c -> clock_ok k (fst (Clock.local_event c d)).
Proof.
  intros H. pose proof H as (Hp & Ht & _).
  apply clock_ok_append; cbn; auto; try lia.
  repeat split; cbn; auto; lia.
Qed.

Lemma clock_ok_send (k : string) (c : LamportClock) (r x : string) :
  clock_ok k c -> clock_ok k (fst (Clock.send c r x)).
Proof.
  intros H. pose proof H as (Hp & Ht & _).
  apply clock_ok_append; cbn; auto; try lia.
  repeat split; cbn; auto; try lia. now rewrite Hp.
Qed.

Lemma clock_ok_receive (k : string) (c : LamportClock) (m : Message) :
  clock_ok k c ->
  msg_id m = Clock.message_id_of (msg_sender m) (msg_timestamp m) ->
  0 < msg_timestamp m ->
  clock_ok k (fst (Clock.receive c m)).
Proof.
  intros H Hid Hm. pose proof H as (Hp & Ht & _).
  apply clock_ok_append; cbn; auto; try lia.
  repeat split; cbn; auto; try lia.
  exists (msg_sender m), (msg_timestamp m). rewrite Hid.
  split; [reflexivity|lia].
Qed.

Lemma message_ok_update (d : dict LamportClock) (k : string)
    (c c' : LamportClock) (m : Message) :
  dict_get d k = Some c -> time c <= time c' ->
  message_ok d m -> message_ok (dict_set d k c') m.
Proof.
  intros Hk Hle (Hid & Hpos & c0 & Hc0 & Hts).
  split; [exact Hid|]. split; [exact Hpos|].
  destruct (string_dec k (msg_sender m)) as [E|N].
  - exists c'. rewrite <- E, dict_get_set_eq. split; [reflexivity|].
    rewrite <- E, Hk in Hc0. injection Hc0 as <-. lia.
  - exists c0. now rewrite dict_get_set_neq.
Qed.

Lemma consistent_update (s : DistributedSystem) (k : string)
    (c c' : LamportClock) :
  consistent s -> dict_get (processes s) k = Some c ->
  clock_ok k c' -> time c <= time c' ->
  consistent (with_processes s (dict_set (processes s) k c')).
Proof.
  intros [Hc Hm Hn] Hk Hok Hle. split; cbn.
  - intros k0 c0 H. apply In_dict_set in H.
    destruct H as [[-> ->]|H]; auto.
  - eapply Forall_impl; [|exact Hm].
    intros m. now apply message_ok_update with (c := c).
  - exact Hn.
Qed.

Lemma consistent_add_pending (s : DistributedSystem) (m : Message) :
  consistent s -> message_ok (processes s) m ->
  ~ In (origin m) (map origin (all_messages s)) ->
  consistent {| processes := processes s;
                pending_messages := pending_messages s ++ [m];
                delivered_messages := delivered_messages s |}.
Proof.
  intros [Hc Hm Hn] Hok Hfresh.
  assert (P : Permutation (m :: all_messages s)
                ((pending_messages s ++ [m]) ++ delivered_messages s)).
  { unfold all_messages. apply (Permutation_app_tail _
      (Permutation_cons_append (pending_messages s) m)). }
  split; cbn; auto; unfold all_messages; cbn.
  - apply (Permutation_Forall P). now constructor.
  - apply (Permutation_NoDup (Permutation_map origin P)).
    cbn. now constructor.
Qed.

Lemma move_perm (m : Message) (p d : list Message) :
  In m p ->
  Permutation (p ++ d) (list_remove Message_eqb m p ++ (d ++ [m])).
Proof.
  intros H. rewrite app_assoc.
  rewrite <- Permutation_cons_append. cbn.
  apply (Permutation_app_tail d (list_remove_perm m p H)).
Qed.

Lemma consistent_move (s : DistributedSystem) (m : Message) :
  consistent s -> In m (pending_messages s) ->
  consistent {| processes := processes s;
                pending_messages :=
                  list_remove Message_eqb m (pending_messages s);
                delivered_messages := delivered_messages s ++ [m] |}.
Proof.
  intros [Hc Hm Hn] Hin.
  pose proof (move_perm m _ (delivered_messages s) Hin) as P.
  split; cbn; auto; unfold all_messages; cbn.
  - now apply (Permutation_Forall P).
  - now apply (Permutation_NoDup (Permutation_map origin P)).
Qed.

Lemma consistent_init (pids : list string) : consistent (init pids).
Proof.
  split.
  - intros k c H. apply init_values in H. cbn in H.
    destruct H as [[]|[_ ->]].
    repeat split; cbn; auto; try lia; constructor.
  - constructor.
  - constructor.
Qed.

Lemma consistent_local_event (s : DistributedSystem) (p d : string) :
  consistent s -> consistent (fst (local_event p d s)).
Proof.
  intros H. unfold local_event.
  destruct (dict_get (processes s) p) as [c|] eqn:E; [|exact H].
  cbn. apply consistent_update with (c := c); auto; cbn; try lia.
  apply (clock_ok_local p c d). apply H. now apply dict_get_In.
Qed.

Lemma consistent_send_message (s : DistributedSystem) (a b x : string) :
  consistent s -> consistent (fst (send_message a b x s)).
Proof.
  intros H. unfold send_message.
  destruct (dict_get (processes s) a) as [c|] eqn:E; [|exact H].
  assert (Hc : clock_ok a c) by (apply H; now apply dict_get_In).
  pose proof Hc as (Hp & Ht & _).
  set (c' := fst (Clock.send c b x)).
  set (m := snd (snd (Clock.send c b x))).
  assert (H1 : consistent (with_processes s (dict_set (processes s) a c'))).
  { apply consistent_update with (c := c); auto;
      [|subst c'; cbn; lia].
    now apply clock_ok_send. }
  apply (consistent_add_pending _ m) in H1; [exact H1| |].
  - subst m. unfold message_ok.
    split; [reflexivity|]. split; [cbn; lia|].
    exists c'. split; [|subst c'; cbn; lia].
    change (msg_sender (snd (snd (Clock.send c b x))))
      with (process_id c).
    rewrite Hp. apply dict_get_set_eq.
  - subst m. cbn. intros Hin. apply in_map_iff in Hin.
    destruct Hin as (m' & Ho & Hin).
    destruct H as [_ Hm _]. rewrite Forall_forall in Hm.
    destruct (Hm m' Hin) as (_ & _ & c0 & Hc0 & Hts).
    unfold origin in Ho. injection Ho as Hs Ht'.
    rewrite Hs, Hp, E in Hc0. injection Hc0 as <-. lia.
Qed.

Lemma consistent_deliver_message (s : DistributedSystem) (m : Message) :
  consistent s -> consistent (fst (deliver_message m s)).
Proof.
  intros H. unfold deliver_message.
  destruct (list_contains Message_eqb m (pending_messages s)) eqn:E;
    [|exact H].
  apply list_contains_In in E.
  pose proof (consistent_move s m H E) as H1.
  cbn [processes].
  destruct (dict_get (processes s) (msg_receiver m)) as [c|] eqn:Er;
    [|exact H1].
  apply (consistent_update _ (msg_receiver m) c
           (fst (Clock.receive c m)) H1 Er).
  - apply clock_ok_receive.
    + apply H. now apply dict_get_In.
    + destruct H as [_ Hm _]. rewrite Forall_forall in Hm.
      apply Hm. apply in_or_app. now left.
    + destruct H as [_ Hm _]. rewrite Forall_forall in Hm.
      apply Hm. apply in_or_app. now left.
  - cbn. lia.
Qed.

Lemma consistent_step (s : DistributedSystem) (o : op) :
  consistent s -> consistent (step s o).
Proof.
  intros H. unfold step, call, bind. destruct o.
  - pose proof (consistent_local_event s pid description H) as H'.
    destruct (local_event pid description s) as [s' [e|a]]; exact H'.
  - pose proof (consistent_send_message s sender receiver content H)
      as H'.
    destruct (send_message sender receiver content s) as [s' [e|a]];
      exact H'.
  - pose proof (consistent_deliver_message s message H) as H'.
    destruct (deliver_message message s) as [s' [e|a]]; exact H'.
Qed.

Lemma consistent_run (ops : list op) (s : DistributedSystem) :
  consistent s -> consistent (run ops s).
Proof.
  revert s. induction ops as [|o ops IH]; intros s H; cbn; [exact H|].
  apply IH. now apply consistent_step.
Qed.

Lemma reachable_consistent (s : DistributedSystem) :
  reachable s -> consistent s.
Proof.
  intros (pids & ops & ->). apply consistent_run, consistent_init.
Qed.

Lemma reachable_step (s : DistributedSystem) (o : op) :
  reachable s -> reachable (step s o).
Proof.
  intros (pids & ops & ->). exists pids, (ops ++ [o])%list.
  unfold run. now rewrite fold_left_app.
Qed.

Lemma consistent_NoDup (s : DistributedSystem) :
  consistent s -> NoDup (all_messages s).
Proof.
  intros [_ _ H]. now apply NoDup_map_inv in H.
Qed.

End Invariant.

(** ** Delivery *)

Section Delivery.

Lemma deliver_message_absent (s : DistributedSystem) (m : Message) :
  ~ In m (pending_messages s) ->
  deliver_message m s = (s, Raise (not_pending_error m)).
Proof.
  intros H. apply list_contains_not_In in H.
  unfold deliver_message. now rewrite H.
Qed.

Lemma deliver_message_present (s : DistributedSystem) (m : Message) :
  In m (pending_messages s) ->
  let moved :=
    {| processes := processes s;
       pending_messages := list_remove Message_eqb m (pending_messages s);
       delivered_messages := delivered_messages s ++ [m] |} in
  deliver_message m s =
    match dict_get (processes s) (msg_receiver m) with
    | None => (moved, Raise (KeyError (msg_receiver m)))
    | Some c =>
        (with_processes moved
           (dict_set (processes s) (msg_receiver m)
              (fst (Clock.receive c m))),
         Return (snd (Clock.receive c m)))
    end.
Proof.
  intros H. apply list_contains_In in H.
  unfold deliver_message. rewrite H. cbn.
  now destruct (dict_get (processes s) (msg_receiver m)).
Qed.

Lemma delivered_not_pending (s : DistributedSystem) (m : Message) :
  consistent s -> In m (delivered_messages s) ->
  ~ In m (pending_messages s).
Proof.
  intros H Hd Hp. apply consistent_NoDup in H. unfold all_messages in H.
  apply in_split in Hp. destruct Hp as (l1 & l2 & E).
  rewrite E, <- app_assoc in H. cbn in H.
  apply NoDup_remove_2 in H. apply H.
  rewrite app_assoc. apply in_or_app. now right.
Qed.

Lemma pending_NoDup (s : DistributedSystem) :
  consistent s -> NoDup (pending_messages s).
Proof.
  intros H. apply consistent_NoDup in H.
  now apply NoDup_app_remove_r in H.
Qed.

End Delivery.

(** C6, as the code runs it.  [deliver_message] raises its [ValueError]
    exactly when no pending message equals the given one in every field,
    and then changes nothing.  Otherwise it removes the message from the
    pending list and appends it to the delivered list; then, when the
    receiver is registered, it performs the receiver's [receive] and returns
    its RECEIVE event, and when it is not, it raises a [KeyError].  In a
    reachable state a second delivery of the same message fails, right after
    the first and at any later time. *)
Theorem deliver_message_moves_pending
    (s : DistributedSystem) (message : Message) :
  let out := deliver_message message s in
  (snd out = Raise (not_pending_error message)
   <-> ~ In message (pending_messages s))
  /\ (~ In message (pending_messages s) -> fst out = s)
  /\ (In message (pending_messages s) ->
      pending_messages (fst out)
        = list_remove Message_eqb message (pending_messages s)
      /\ delivered_messages (fst out)
         = (delivered_messages s ++ [message])%list
      /\ match dict_get (processes s) (msg_receiver message) with
         | Some c =>
             snd out = Return (snd (Clock.receive c message))
             /\ ev_event_type (snd (Clock.receive c message)) = RECEIVE
             /\ processes (fst out)
                = dict_set (processes s) (msg_receiver message)
                    (fst (Clock.receive c message))
         | None =>
             snd out = Raise (KeyError (msg_receiver message))
             /\ processes (fst out) = processes s
         end)
  /\ (reachable s -> In message (pending_messages s) ->
      snd (deliver_message message (fst out))
        = Raise (not_pending_error message))
  /\ (reachable s -> In message (delivered_messages s) ->
      snd out = Raise (not_pending_error message)).
Proof.
  intros out.
  assert (Hpresent : In message (pending_messages s) ->
            pending_messages (fst out)
              = list_remove Message_eqb message (pending_messages s)
            /\ snd out <> Raise (not_pending_error message)).
  { intros H. subst out. rewrite (deliver_message_present s message H).
    destruct (dict_get (processes s) (msg_receiver message));
      cbn; split; auto; discriminate. }
  split; [|split; [|split; [|split]]].
  - split.
    + intros E Hin. now apply Hpresent in Hin.
    + intros Hn. subst out. now rewrite deliver_message_absent.
  - intros Hn. subst out. now rewrite deliver_message_absent.
  - intros H. subst out. rewrite (deliver_message_present s message H).
    destruct (dict_get (processes s) (msg_receiver message));
      cbn; repeat split.
  - intros Hr Hin.
    rewrite deliver_message_absent; [reflexivity|].
    destruct (Hpresent Hin) as [-> _].
    apply list_remove_NoDup, pending_NoDup.
    now apply reachable_consistent.
  - intros Hr Hin. subst out.
    rewrite deliver_message_absent; [reflexivity|].
    apply delivered_not_pending; [now apply reachable_consistent|exact Hin].
Qed.

(** The first message of [demo()], delivered twice. *)
Lemma deliver_message_moves_pending_witness :
  let s := run [OpLocal "A" "Start computation"; OpSend "A" "B" "Hello B"]
               demo_system in
  let m := mkMessage "A-2" "A" "B" 2 "Hello B" in
  reachable s /\ In m (pending_messages s)
  /\ snd (deliver_message m (fst (deliver_message m s)))
     = Raise (not_pending_error m).
Proof.
  intros s m.
  assert (Hr : reachable s) by (eexists _, _; reflexivity).
  assert (Hin : In m (pending_messages s)) by (left; reflexivity).
  split; [exact Hr|]. split; [exact Hin|].
  exact (proj1 (proj2 (proj2 (proj2
           (deliver_message_moves_pending s m)))) Hr Hin).
Defined.

(** C6, as stated, fails.  A message with the id of a pending message but
    another content is refused as not pending: the lookup compares every
    field, not the id alone.  And a pending message whose receiver is not
    registered is moved to the delivered list without any RECEIVE event
    being returned: the call raises a [KeyError]. *)
Lemma deliver_message_compares_all_fields :
  let s := run [OpLocal "A" "Start computation"; OpSend "A" "B" "Hello B"]
               demo_system in
  let forged := mkMessage "A-2" "A" "B" 2 "other" in
  let s' := run [OpSend "A" "Z" "x"] (init ["A"]) in
  let m := mkMessage "A-1" "A" "Z" 1 "x" in
  (exists m0, In m0 (pending_messages s) /\ msg_id m0 = msg_id forged)
  /\ snd (deliver_message forged s) = Raise (not_pending_error forged)
  /\ In m (pending_messages s')
  /\ snd (deliver_message m s') = Raise (KeyError "Z")
  /\ delivered_messages (fst (deliver_message m s')) = [m].
Proof.
  cbn. repeat split; auto.
  eexists. split; [left; reflexivity|reflexivity].
Qed.

(** ** Conservation of messages *)

Section Conservation.

Lemma step_messages (s : DistributedSystem) (o : op) :
  Permutation (all_messages s ++ created [o] s) (all_messages (step s o)).
Proof.
  unfold step, call, bind. destruct o; cbn [created].
  - rewrite !app_nil_r. unfold local_event.
    destruct (dict_get (processes s) pid); reflexivity.
  - rewrite app_nil_r. unfold send_message.
    destruct (dict_get (processes s) sender); cbn.
    + unfold all_messages. cbn.
      rewrite <- !app_assoc. apply Permutation_app_head.
      apply Permutation_app_comm.
    + now rewrite app_nil_r.
  - rewrite !app_nil_r.
    destruct (in_dec Message_eq_dec message (pending_messages s))
      as [Hin|Hn].
    + rewrite (deliver_message_present s message Hin).
      destruct (dict_get (processes s) (msg_receiver message)); cbn;
        now apply move_perm.
    + now rewrite (deliver_message_absent s message Hn).
Qed.

Lemma created_cons (o : op) (ops : list op) (s : DistributedSystem) :
  created (o :: ops) s = (created [o] s ++ created ops (step s o))%list.
Proof. cbn [created]. now rewrite app_nil_r. Qed.

Lemma run_messages (ops : list op) (s : DistributedSystem) :
  Permutation (all_messages s ++ created ops s)
              (all_messages (run ops s)).
Proof.
  revert s. induction ops as [|o ops IH]; intros s.
  - cbn. now rewrite app_nil_r.
  - rewrite created_cons, app_assoc. cbn [run fold_left].
    rewrite (Permutation_app_tail _ (step_messages s o)).
    apply IH.
Qed.

End Conservation.

(** C7.  After every script of calls on a new system, the messages its
    [send_message] calls created are, each once, the messages of the
    pending and delivered lists together; none is in both lists and none in
    neither, so their number is [|pending| + |delivered|]. *)
Theorem messages_conserved (process_ids : list string) (ops : list op) :
  let s := run ops (init process_ids) in
  let sent := created ops (init process_ids) in
  Permutation sent (pending_messages s ++ delivered_messages s)
  /\ NoDup sent
  /\ NoDup (pending_messages s ++ delivered_messages s)
  /\ (forall m, In m sent ->
        (In m (pending_messages s) /\ ~ In m (delivered_messages s))
        \/ (In m (delivered_messages s) /\ ~ In m (pending_messages s)))
  /\ List.length sent
     = (List.length (pending_messages s)
        + List.length (delivered_messages s))%nat.
Proof.
  intros s sent.
  assert (P : Permutation sent (all_messages s))
    by apply (run_messages ops (init process_ids)).
  assert (C : consistent s) by apply consistent_run, consistent_init.
  pose proof (consistent_NoDup s C) as N.
  split; [exact P|]. split; [|split; [exact N|split]].
  - apply (Permutation_NoDup (Permutation_sym P) N).
  - intros m Hm. apply (Permutation_in _ P) in Hm.
    apply in_app_or in Hm. destruct Hm as [Hm|Hm].
    + left. split; [exact Hm|]. intros Hd.
      now apply (delivered_not_pending s m C Hd).
    + right. split; [exact Hm|]. now apply delivered_not_pending.
  - rewrite (Permutation_length P). apply length_app.
Qed.

(** ** What one call changes *)

Section Steps.

Lemma step_local (s : DistributedSystem) (p d : string) :
  step s (OpLocal p d) = fst (local_event p d s).
Proof.
  unfold step, call, bind. now destruct (local_event p d s) as [s' [e|a]].
Qed.

Lemma step_send (s : DistributedSystem) (a b x : string) :
  step s (OpSend a b x) = fst (send_message a b x s).
Proof.
  unfold step, call, bind.
  now destruct (send_message a b x s) as [s' [e|m]].
Qed.

Lemma step_deliver (s : DistributedSystem) (m : Message) :
  step s (OpDeliver m) = fst (deliver_message m s).
Proof.
  unfold step, call, bind.
  now destruct (deliver_message m s) as [s' [e|a]].
Qed.

(** A call leaves the clocks alone or replaces the clock of one
    registered process by one that continues it with one more event. *)
Lemma step_processes (s : DistributedSystem) (o : op) :
  processes (step s o) = processes s
  \/ exists p c c' e,
       dict_get (processes s) p = Some c
       /\ processes (step s o) = dict_set (processes s) p c'
       /\ process_id c' = process_id c /\ time c < time c'
       /\ events c' = (events c ++ [e])%list.
Proof.
  destruct o.
  - rewrite step_local. unfold local_event.
    destruct (dict_get (processes s) pid) as [c|] eqn:E; [|now left].
    right. exists pid, c. eexists _, _. cbn.
    split; [exact E|]. split; [reflexivity|]. cbn.
  split; [reflexivity|]. split; [lia|reflexivity].
  - rewrite step_send. unfold send_message.
    destruct (dict_get (processes s) sender) as [c|] eqn:E; [|now left].
    right. exists sender, c. eexists _, _. cbn.
    split; [exact E|]. split; [reflexivity|]. cbn.
  split; [reflexivity|]. split; [lia|reflexivity].
  - rewrite step_deliver.
    destruct (in_dec Message_eq_dec message (pending_messages s))
      as [Hin|Hn].
    + rewrite (deliver_message_present s message Hin).
      destruct (dict_get (processes s) (msg_receiver message)) as [c|]
        eqn:E; [|now left].
      right. exists (msg_receiver message), c. eexists _, _. cbn.
      split; [exact E|]. split; [reflexivity|]. cbn.
  split; [reflexivity|]. split; [lia|reflexivity].
    + rewrite (deliver_message_absent s message Hn). now left.
Qed.

Lemma step_keys (s : DistributedSystem) (o : op) :
  dict_keys (processes (step s o)) = dict_keys (processes s).
Proof.
  destruct (step_processes s o) as [->|(p & c & c' & e & E & -> & _)];
    [reflexivity|].
  apply dict_keys_set_old, dict_get_keys. congruence.
Qed.

Lemma run_keys (ops : list op) (s : DistributedSystem) :
  dict_keys (processes (run ops s)) = dict_keys (processes s).
Proof.
  revert s. induction ops as [|o ops IH]; intros s; cbn; [reflexivity|].
  fold (run ops (step s o)). now rewrite IH, step_keys.
Qed.

Lemma reachable_keys (pids : list string) (ops : list op) :
  NoDup (dict_keys (processes (run ops (init pids))))
  /\ forall k, In k (dict_keys (processes (run ops (init pids))))
               <-> In k pids.
Proof.
  rewrite run_keys. unfold init. cbn [processes]. split.
  - apply init_keys_NoDup. constructor.
  - intros k. rewrite init_keys_In. cbn. tauto.
Qed.

Lemma continues_refl (c : LamportClock) : continues c c.
Proof.
  split; [reflexivity|]. split; [lia|]. exists []. now rewrite app_nil_r.
Qed.

Lemma continues_trans (a b c : LamportClock) :
  continues a b -> continues b c -> continues a c.
Proof.
  intros (P1 & T1 & l1 & E1) (P2 & T2 & l2 & E2).
  split; [congruence|]. split; [lia|].
  exists (l1 ++ l2)%list. now rewrite E2, E1, app_assoc.
Qed.

Lemma step_continues (s : DistributedSystem) (o : op) (k : string)
    (c : LamportClock) :
  dict_get (processes s) k = Some c ->
  exists c', dict_get (processes (step s o)) k = Some c'
             /\ continues c c'
             /\ (List.length (events c') <= S (List.length (events c)))%nat.
Proof.
  intros H.
  destruct (step_processes s o)
    as [->|(p & c0 & c' & e & E & -> & Hp & Ht & He)].
  - exists c. split; [exact H|]. split; [apply continues_refl|lia].
  - destruct (string_dec p k) as [->|N].
    + exists c'. rewrite dict_get_set_eq. split; [reflexivity|].
      rewrite E in H. injection H as ->.
      split; [|rewrite He, length_app; cbn; lia].
      split; [exact Hp|]. split; [lia|]. now exists [e].
    + exists c. rewrite dict_get_set_neq by exact N.
      split; [exact H|]. split; [apply continues_refl|lia].
Qed.

Lemma step_delivered (s : DistributedSystem) (o : op) :
  exists l, delivered_messages (step s o)
            = (delivered_messages s ++ l)%list.
Proof.
  destruct o.
  - rewrite step_local. unfold local_event. exists [].
    rewrite app_nil_r. now destruct (dict_get (processes s) pid).
  - rewrite step_send. unfold send_message. exists [].
    rewrite app_nil_r. now destruct (dict_get (processes s) sender).
  - rewrite step_deliver.
    destruct (in_dec Message_eq_dec message (pending_messages s))
      as [Hin|Hn].
    + rewrite (deliver_message_present s message Hin). exists [message].
      now destruct (dict_get (processes s) (msg_receiver message)).
    + rewrite (deliver_message_absent s message Hn). exists [].
      now rewrite app_nil_r.
Qed.

End Steps.


(** ** The global history *)

Section History.

Lemma leb_iff (a b : string) :
  String.leb a b = true <-> a = b \/ String_as_OT.lt a b.
Proof.
  unfold String.leb. destruct (String.compare a b) eqn:E.
  - split; [|reflexivity]. intros _. left.
    now apply String_as_OT.cmp_eq.
  - split; [|reflexivity]. intros _. right.
    now apply String_as_OT.cmp_lt.
  - split; [discriminate|]. intros [H|H].
    + apply String_as_OT.cmp_eq in H.
      unfold String_as_OT.cmp in H. congruence.
    + apply String_as_OT.cmp_lt in H.
      unfold String_as_OT.cmp in H. congruence.
Qed.

Lemma leb_trans (a b c : string) :
  String.leb a b = true -> String.leb b c = true ->
  String.leb a c = true.
Proof.
  rewrite !leb_iff. intros [->|H1] [->|H2]; auto.
  right. now apply String_as_OT.lt_trans with b.
Qed.

Lemma ltb_leb (a b : string) :
  String.ltb a b = true -> String.leb a b = true.
Proof.
  unfold String.ltb, String.leb.
  now destruct (String.compare a b).
Qed.

Lemma not_ltb_leb (a b : string) :
  String.ltb a b = false -> String.leb b a = true.
Proof.
  unfold String.ltb, String.leb. rewrite (String.compare_antisym b a).
  now destruct (String.compare a b).
Qed.

Lemma leb_refl (a : string) : String.leb a a = true.
Proof. apply leb_iff. now left. Qed.

Lemma by_stamp_trans (a b c : Event) :
  by_stamp a b -> by_stamp b c -> by_stamp a c.
Proof.
  unfold by_stamp, stamp_le, stamp. cbn.
  intros [H1|[H1 L1]] [H2|[H2 L2]]; try (left; lia).
  right. split; [lia|]. now apply leb_trans with (ev_process_id b).
Qed.

Lemma by_stamp_timestamp (a b : Event) :
  by_stamp a b -> ev_timestamp a <= ev_timestamp b.
Proof. unfold by_stamp, stamp_le, stamp. cbn. lia. Qed.

Lemma key_ltb_true (a b : Event) : key_ltb a b = true -> by_stamp a b.
Proof.
  unfold key_ltb, by_stamp, stamp_le, stamp. cbn.
  destruct (Z.eqb_spec (ev_timestamp a) (ev_timestamp b)) as [E|N].
  - intros H. right. split; [exact E|now apply ltb_leb].
  - intros H. apply Z.ltb_lt in H. now left.
Qed.

Lemma key_ltb_false (a b : Event) : key_ltb a b = false -> by_stamp b a.
Proof.
  unfold key_ltb, by_stamp, stamp_le, stamp. cbn.
  destruct (Z.eqb_spec (ev_timestamp a) (ev_timestamp b)) as [E|N].
  - intros H. right. split; [now symmetry|now apply not_ltb_leb].
  - intros H. apply Z.ltb_ge in H. left. lia.
Qed.

Lemma insert_perm (x : Event) (l : list Event) :
  Permutation (insert key_ltb x l) (x :: l).
Proof.
  induction l as [|y l IH]; cbn; [reflexivity|].
  destruct (key_ltb x y); [reflexivity|].
  rewrite IH. apply perm_swap.
Qed.

Lemma insert_sorted (x : Event) (l : list Event) :
  StronglySorted by_stamp l ->
  StronglySorted by_stamp (insert key_ltb x l).
Proof.
  induction 1 as [|y l Hs IH Hf]; cbn.
  - repeat constructor.
  - destruct (key_ltb x y) eqn:E.
    + apply key_ltb_true in E.
      constructor; [now constructor|].
      constructor; [exact E|].
      eapply Forall_impl; [|exact Hf].
      intros a. now apply by_stamp_trans.
    + apply key_ltb_false in E.
      constructor; [exact IH|].
      apply (Permutation_Forall (Permutation_sym (insert_perm x l))).
      now constructor.
Qed.

Lemma sorted_fold (l acc : list Event) :
  StronglySorted by_stamp acc ->
  StronglySorted by_stamp
    (fold_left (fun acc x => insert key_ltb x acc) l acc)
  /\ Permutation (fold_left (fun acc x => insert key_ltb x acc) l acc)
                 (acc ++ l).
Proof.
  revert acc. induction l as [|x l IH]; intros acc H; cbn.
  - split; [exact H|]. now rewrite app_nil_r.
  - destruct (IH _ (insert_sorted x acc H)) as [Hs Hp].
    split; [exact Hs|]. rewrite Hp, insert_perm.
    now rewrite <- Permutation_middle.
Qed.

Lemma history_sorted (s : DistributedSystem) :
  StronglySorted by_stamp (get_global_history s).
Proof. apply sorted_fold. constructor. Qed.

Lemma history_perm (s : DistributedSystem) :
  Permutation (get_global_history s) (all_events s).
Proof.
  unfold get_global_history, sorted.
  now destruct (sorted_fold (all_events s) [] (SSorted_nil _)).
Qed.

Lemma all_events_In (s : DistributedSystem) (e : Event) :
  In e (all_events s) ->
  exists k c, In (k, c) (processes s) /\ In e (events c).
Proof.
  unfold all_events, dict_values. intros H.
  apply in_flat_map in H. destruct H as (c & Hc & He).
  apply in_map_iff in Hc. destruct Hc as ([k c'] & E & Hin).
  cbn in E. subst c'. now exists k, c.
Qed.

Lemma history_In (s : DistributedSystem) (k : string)
    (c : LamportClock) (e : Event) :
  In (k, c) (processes s) -> In e (events c) ->
  In e (get_global_history s).
Proof.
  intros Hin He.
  apply (Permutation_in _ (Permutation_sym (history_perm s))).
  unfold all_events, dict_values. apply in_flat_map.
  exists c. split; [|exact He].
  apply in_map_iff. now exists (k, c).
Qed.

Lemma history_event_ok (s : DistributedSystem) (i : nat) (e : Event) :
  consistent s -> nth_error (get_global_history s) i = Some e ->
  exists k, event_ok k e.
Proof.
  intros C H. apply nth_error_In in H.
  apply (Permutation_in _ (history_perm s)) in H.
  apply all_events_In in H. destruct H as (k & c & Hin & He).
  exists k. destruct (clocks_ok s C k c Hin) as (_ & _ & _ & Hf).
  rewrite Forall_forall in Hf. now apply Hf.
Qed.

(** A RECEIVE event is stamped after the SEND event of its message. *)
Lemma send_receive_timestamps (k k' mid : string) (r e : Event) :
  event_ok k r -> event_ok k' e ->
  ev_event_type r = RECEIVE -> ev_event_type e = SEND ->
  ev_message_id r = Some mid -> ev_message_id e = Some mid ->
  ev_timestamp e < ev_timestamp r.
Proof.
  intros (_ & _ & Hr) (_ & He0 & He) Tr Te Mr Me.
  rewrite Tr in Hr. rewrite Te in He.
  destruct Hr as (p & t & Hr & Ht).
  rewrite Mr in Hr. rewrite Me in He.
  injection Hr as Hr. injection He as He.
  rewrite Hr in He. apply message_id_of_inj in He; lia.
Qed.

Lemma history_send_before_receive (s : DistributedSystem) :
  consistent s -> send_before_receive (get_global_history s).
Proof.
  intros C i j r e mid Hi Hj Tr Te Mr Me.
  destruct (history_event_ok s i r C Hi) as [k Hr].
  destruct (history_event_ok s j e C Hj) as [k' He].
  pose proof (send_receive_timestamps _ _ _ _ _ Hr He Tr Te Mr Me) as Hlt.
  destruct (Nat.lt_trichotomy j i) as [H|[H|H]]; [exact H| |].
  - subst j. rewrite Hi in Hj. injection Hj as ->. lia.
  - pose proof (StronglySorted_nth _ _ _ _ _ _
                  (history_sorted s) H Hi Hj) as Hle.
    apply by_stamp_timestamp in Hle. lia.
Qed.

Lemma history_keeps_local_order (s : DistributedSystem) :
  consistent s -> keeps_local_order s (get_global_history s).
Proof.
  intros C k c a b i j e1 e2 Hin Ha Hb Hab Hi Hj.
  destruct (clocks_ok s C k c Hin) as (_ & _ & [Ho _] & _).
  assert (Hlt : ev_timestamp e1 < ev_timestamp e2).
  { apply (StronglySorted_nth _ _ a b _ _ Ho Hab);
      rewrite nth_error_map; [now rewrite Ha|now rewrite Hb]. }
  destruct (Nat.lt_trichotomy i j) as [H|[H|H]]; [exact H| |].
  - subst j. rewrite Hi in Hj. injection Hj as ->. lia.
  - pose proof (StronglySorted_nth _ _ _ _ _ _
                  (history_sorted s) H Hj Hi) as Hle.
    apply by_stamp_timestamp in Hle. lia.
Qed.

End History.

(** C8.  [get_global_history] returns the events of all the logs of all
    the processes, each as often as it is logged and no other, in ascending
    order of [(timestamp, process_id)] with ties on the timestamp broken by
    the lexicographic order of the process ids.  In every reachable state
    that order extends happened-before: every SEND event stands before the
    RECEIVE events of its message id, and two events of one process stand
    as in its log; so a SEND and a RECEIVE of one message found in the
    logs, and two events of one log, are found in the history in that
    order. *)
Theorem global_history_linear_extension (s : DistributedSystem) :
  Permutation (get_global_history s)
              (flat_map events (map snd (processes s)))
  /\ (forall e, In e (get_global_history s)
                <-> exists k c, In (k, c) (processes s)
                                /\ In e (events c))
  /\ StronglySorted by_stamp (get_global_history s)
  /\ (reachable s ->
      send_before_receive (get_global_history s)
      /\ keeps_local_order s (get_global_history s)
      /\ (forall k c k' c' e r mid,
            In (k, c) (processes s) -> In e (events c) ->
            In (k', c') (processes s) -> In r (events c') ->
            ev_event_type e = SEND -> ev_event_type r = RECEIVE ->
            ev_message_id e = Some mid -> ev_message_id r = Some mid ->
            exists i j, (i < j)%nat
                        /\ nth_error (get_global_history s) i = Some e
                        /\ nth_error (get_global_history s) j = Some r)
      /\ (forall k c a b e1 e2,
            In (k, c) (processes s) ->
            nth_error (events c) a = Some e1 ->
            nth_error (events c) b = Some e2 -> (a < b)%nat ->
            exists i j, (i < j)%nat
                        /\ nth_error (get_global_history s) i = Some e1
                        /\ nth_error (get_global_history s) j = Some e2)).
Proof.
  split; [apply history_perm|].
  split; [|split; [apply history_sorted|]].
  - intros e. split.
    + intros H. apply (Permutation_in _ (history_perm s)) in H.
      now apply all_events_In.
    + intros (k & c & Hin & He). now apply (history_In s k c).
  - intros H. apply reachable_consistent in H.
    pose proof (history_send_before_receive s H) as SR.
    pose proof (history_keeps_local_order s H) as LO.
    split; [exact SR|]. split; [exact LO|]. split.
    + intros k c k' c' e r mid Hin He Hin' Hr Te Tr Me Mr.
      destruct (In_nth_error _ _ (history_In s k c e Hin He)) as (i & Hi).
      destruct (In_nth_error _ _ (history_In s k' c' r Hin' Hr))
        as (j & Hj).
      exists i, j. split; [|now split].
      exact (SR j i r e mid Hj Hi Tr Te Mr Me).
    + intros k c a b e1 e2 Hin Ha Hb Hab.
      destruct (In_nth_error _ _
                  (history_In s k c e1 Hin (nth_error_In _ _ Ha)))
        as (i & Hi).
      destruct (In_nth_error _ _
                  (history_In s k c e2 Hin (nth_error_In _ _ Hb)))
        as (j & Hj).
      exists i, j. split; [|now split].
      exact (LO k c a b i j e1 e2 Hin Ha Hb Hab Hi Hj).
Qed.

(** In the state the scenario of [demo()] ends in, the SEND of A's first
    message and its RECEIVE by B, and the first two events of A. *)
Lemma global_history_linear_extension_witness :
  reachable demo_final
  /\ send_before_receive (get_global_history demo_final)
  /\ keeps_local_order demo_final (get_global_history demo_final)
  /\ (exists i j e r,
        (i < j)%nat
        /\ ev_event_type e = SEND /\ ev_event_type r = RECEIVE
        /\ ev_message_id e = Some "A-2" /\ ev_message_id r = Some "A-2"
        /\ nth_error (get_global_history demo_final) i = Some e
        /\ nth_error (get_global_history demo_final) j = Some r)
  /\ List.length (get_global_history demo_final) = 11%nat.
Proof.
  assert (H : reachable demo_final).
  { exists ["A"; "B"; "C"], demo_script. reflexivity. }
  destruct (proj2 (proj2 (proj2
              (global_history_linear_extension demo_final))) H)
    as (SR & LO & Pair & _).
  split; [exact H|]. split; [exact SR|]. split; [exact LO|].
  split; [|reflexivity].
  destruct (dict_get (processes demo_final) "A") as [ca|] eqn:Ea;
    [|discriminate].
  destruct (dict_get (processes demo_final) "B") as [cb|] eqn:Eb;
    [|discriminate].
  destruct (nth_error (events ca) 1) as [e|] eqn:Ee;
    [|vm_compute in Ea; injection Ea as <-; discriminate].
  destruct (nth_error (events cb) 2) as [r|] eqn:Er;
    [|vm_compute in Eb; injection Eb as <-; discriminate].
  assert (Fe : ev_event_type e = SEND /\ ev_message_id e = Some "A-2").
  { vm_compute in Ea. injection Ea as <-. vm_compute in Ee.
    injection Ee as <-. now split. }
  assert (Fr : ev_event_type r = RECEIVE /\ ev_message_id r = Some "A-2").
  { vm_compute in Eb. injection Eb as <-. vm_compute in Er.
    injection Er as <-. now split. }
  destruct Fe as [Te Me]. destruct Fr as [Tr Mr].
  destruct (Pair "A" ca "B" cb e r "A-2"
              (dict_get_In _ _ _ Ea) (nth_error_In _ _ Ee)
              (dict_get_In _ _ _ Eb) (nth_error_In _ _ Er)
              Te Tr Me Mr) as (i & j & Hij & Hi & Hj).
  exists i, j, e, r. repeat split; assumption.
Defined.

(** ** The causality check *)

Section Causality.

Lemma find_event_spec (mid : string) (ty : EventType)
    (evs : list Event) (e : Event) :
  find_event mid ty evs = Some e ->
  In e evs /\ ev_message_id e = Some mid /\ ev_event_type e = ty.
Proof.
  unfold find_event. intros H. apply find_some in H.
  destruct H as [Hin H]. split; [exact Hin|].
  unfold matches in H. apply andb_true_iff in H. destruct H as [H1 H2].
  split.
  - destruct (ev_message_id e) as [i|]; [|discriminate].
    apply String.eqb_eq in H1. now subst.
  - destruct (ev_event_type e), ty; auto; discriminate.
Qed.

(** The test of the violation branch is never met. *)
Lemma no_violation (s : DistributedSystem) (m : Message)
    (sc rc : LamportClock) (se re : Event) :
  consistent s ->
  dict_get (processes s) (msg_sender m) = Some sc ->
  dict_get (processes s) (msg_receiver m) = Some rc ->
  find_event (msg_id m) SEND (events sc) = Some se ->
  find_event (msg_id m) RECEIVE (events rc) = Some re ->
  (ev_timestamp re <=? ev_timestamp se) = false.
Proof.
  intros C Hs Hr Fs Fr.
  apply find_event_spec in Fs, Fr.
  destruct Fs as (Is & Ms & Ts). destruct Fr as (Ir & Mr & Tr).
  apply dict_get_In in Hs, Hr.
  destruct (clocks_ok s C _ _ Hs) as (_ & _ & _ & Fs).
  destruct (clocks_ok s C _ _ Hr) as (_ & _ & _ & Fr).
  rewrite Forall_forall in Fs, Fr.
  apply Z.leb_gt.
  exact (send_receive_timestamps _ _ _ _ _
           (Fr _ Ir) (Fs _ Is) Tr Ts Mr Ms).
Qed.

Lemma verify_loop_returns (s : DistributedSystem) (msgs : list Message)
    (acc : list string) :
  consistent s ->
  Forall (fun m => registered s (msg_sender m)) msgs ->
  Forall (fun m => registered s (msg_receiver m)) msgs ->
  verify_loop s msgs acc = Return acc.
Proof.
  intros C. induction msgs as [|m msgs IH]; intros Hs Hr; cbn;
    [reflexivity|].
  inversion Hs as [|? ? Hs1 Hs2]; subst.
  inversion Hr as [|? ? Hr1 Hr2]; subst.
  unfold registered in Hs1, Hr1.
  destruct (dict_get (processes s) (msg_sender m)) as [sc|] eqn:Es;
    [|contradiction].
  destruct (dict_get (processes s) (msg_receiver m)) as [rc|] eqn:Er;
    [|contradiction].
  destruct (find_event (msg_id m) SEND (events sc)) as [se|] eqn:Fs;
    [|now apply IH].
  destruct (find_event (msg_id m) RECEIVE (events rc)) as [re|] eqn:Fr;
    [|now apply IH].
  rewrite (no_violation s m sc rc se re C Es Er Fs Fr). now apply IH.
Qed.

Lemma verify_loop_registered (s : DistributedSystem)
    (msgs : list Message) (acc v : list string) :
  verify_loop s msgs acc = Return v ->
  Forall (fun m => registered s (msg_receiver m)) msgs.
Proof.
  revert acc. induction msgs as [|m msgs IH]; intros acc H; cbn in H;
    [constructor|].
  destruct (dict_get (processes s) (msg_sender m)) as [sc|] eqn:Es;
    [|discriminate].
  destruct (dict_get (processes s) (msg_receiver m)) as [rc|] eqn:Er;
    [|discriminate].
  constructor; [unfold registered; congruence|].
  now apply IH in H.
Qed.

Lemma delivered_senders_registered (s : DistributedSystem) :
  consistent s ->
  Forall (fun m => registered s (msg_sender m)) (delivered_messages s).
Proof.
  intros [_ Hm _]. unfold all_messages in Hm.
  apply Forall_app in Hm. destruct Hm as [_ Hm].
  eapply Forall_impl; [|exact Hm].
  intros m (_ & _ & c & Hc & _). unfold registered. congruence.
Qed.

Lemma created_send_receiver (s : DistributedSystem) (a b x : string)
    (m : Message) :
  In m (created [OpSend a b x] s) -> msg_receiver m = b.
Proof.
  cbn [created]. rewrite app_nil_r. unfold send_message.
  destruct (dict_get (processes s) a); cbn; [|tauto].
  now intros [<-|[]].
Qed.

(** When every [send_message] of a script names a receiver among
    [pids], so does every message the system holds afterwards. *)
Lemma run_receivers (pids : list string) (ops : list op)
    (s : DistributedSystem) :
  (forall m, In m (all_messages s) -> In (msg_receiver m) pids) ->
  (forall a b x, In (OpSend a b x) ops -> In b pids) ->
  forall m, In m (all_messages (run ops s)) -> In (msg_receiver m) pids.
Proof.
  revert s. induction ops as [|o ops IH]; intros s Hs Hops; cbn;
    [exact Hs|].
  fold (run ops (step s o)). apply IH.
  - intros m Hm.
    apply (Permutation_in _ (Permutation_sym (step_messages s o))) in Hm.
    apply in_app_or in Hm. destruct Hm as [Hm|Hm]; [now apply Hs|].
    destruct o; try (cbn in Hm; tauto).
    rewrite (created_send_receiver s _ _ _ m Hm).
    apply (Hops sender receiver content). now left.
  - intros a b x Hin. apply (Hops a b x). now right.
Qed.

End Causality.

(** C9, as the code runs it.  In every reachable state [verify_causality]
    returns the empty list when the receiver of every delivered message is
    registered, and only then; it never returns a violation, so its
    violation branch is not reached.  In particular it returns the empty
    list after every script whose [send_message] calls name registered
    receivers.  (When a delivered message names a receiver that is not
    registered, the lookup of that receiver raises.) *)
Theorem verify_causality_finds_nothing (s : DistributedSystem) :
  reachable s ->
  (verify_causality s = Return []
   <-> forall m, In m (delivered_messages s) ->
                 registered s (msg_receiver m))
  /\ (forall v, verify_causality s = Return v -> v = [])
  /\ (forall process_ids ops,
        s = run ops (init process_ids) ->
        (forall a b x, In (OpSend a b x) ops -> In b process_ids) ->
        verify_causality s = Return []).
Proof.
  intros H. apply reachable_consistent in H.
  assert (Hret : (forall m, In m (delivered_messages s) ->
                            registered s (msg_receiver m)) ->
                 verify_causality s = Return []).
  { intros Hr. apply verify_loop_returns; auto.
    - now apply delivered_senders_registered.
    - now apply Forall_forall. }
  split; [split; [|exact Hret]|split].
  - intros E. apply verify_loop_registered in E.
    now rewrite Forall_forall in E.
  - intros v E. pose proof E as E'.
    apply verify_loop_registered in E'.
    rewrite Forall_forall in E'. rewrite (Hret E') in E.
    now injection E as <-.
  - intros pids ops Es Hops. apply Hret. intros m Hm.
    unfold registered. apply dict_get_keys. rewrite Es.
    apply reachable_keys.
    apply (run_receivers pids ops (init pids)); [intros ? []|exact Hops|].
    rewrite <- Es. apply in_or_app. now right.
Qed.

(** The script of [demo()] sends to B, C and A, all registered. *)
Lemma verify_causality_finds_nothing_witness :
  reachable demo_final
  /\ demo_final = run demo_script (init ["A"; "B"; "C"])
  /\ (forall a b x, In (OpSend a b x) demo_script ->
                    In b ["A"; "B"; "C"])
  /\ verify_causality demo_final = Return [].
Proof.
  assert (H : reachable demo_final).
  { exists ["A"; "B"; "C"], demo_script. reflexivity. }
  assert (E : demo_final = run demo_script (init ["A"; "B"; "C"]))
    by reflexivity.
  assert (S : forall a b x, In (OpSend a b x) demo_script ->
                            In b ["A"; "B"; "C"]).
  { intros a b x Hin. cbn in Hin.
    repeat (destruct Hin as [Hin|Hin];
            [try discriminate; injection Hin as <- <- <-; cbn; tauto|]).
    contradiction. }
  split; [exact H|]. split; [exact E|]. split; [exact S|].
  exact (proj2 (proj2 (verify_causality_finds_nothing demo_final H))
           _ _ E S).
Defined.

(** C9, as stated, fails: after a message to an unregistered id was sent
    and its delivery was tried, the message is in the delivered list and
    [verify_causality] raises a [KeyError]. *)
Lemma verify_causality_raises_on_unregistered_receiver :
  let m := mkMessage "A-1" "A" "Z" 1 "x" in
  let s := run [OpSend "A" "Z" "x"; OpDeliver m] (init ["A"]) in
  reachable s
  /\ delivered_messages s = [m]
  /\ verify_causality s = Raise (KeyError "Z")
  /\ raises (verify_causality s).
Proof.
  cbn. repeat split.
  - exists ["A"],
      [OpSend "A" "Z" "x"; OpDeliver (mkMessage "A-1" "A" "Z" 1 "x")].
    reflexivity.
  - now eexists.
Qed.

(** ** Delivering everything *)

Section DeliverAll.

Lemma choice_In (draw : nat) (l : list Message) (m0 : Message) :
  l <> [] -> In (choice draw l m0) l.
Proof.
  intros H. unfold choice. apply nth_In.
  apply Nat.mod_upper_bound. destruct l; [contradiction|discriminate].
Qed.

Lemma deliver_message_shrinks (s : DistributedSystem) (m : Message) :
  In m (pending_messages s) ->
  S (List.length (pending_messages (fst (deliver_message m s))))
    = List.length (pending_messages s)
  /\ incl (pending_messages (fst (deliver_message m s)))
          (pending_messages s)
  /\ dict_keys (processes (fst (deliver_message m s)))
     = dict_keys (processes s).
Proof.
  intros H. rewrite (deliver_message_present s m H).
  assert (L := list_remove_length m _ H).
  assert (I : incl (list_remove Message_eqb m (pending_messages s))
                   (pending_messages s))
    by (intros x; apply list_remove_incl).
  destruct (dict_get (processes s) (msg_receiver m)) eqn:E; cbn.
  - repeat split; auto. apply dict_keys_set_old.
    apply dict_get_keys. congruence.
  - repeat split; auto.
Qed.

Lemma deliver_all_loop_terminates (fuel : nat) (rng : nat -> nat)
    (k : nat) (s : DistributedSystem) :
  (List.length (pending_messages s) <= fuel)%nat ->
  exists s' r, deliver_all_loop fuel rng k s = Some (s', r)
               /\ (r = Return tt -> pending_messages s' = []).
Proof.
  revert k s. induction fuel as [|fuel IH]; intros k s Hlen; cbn.
  - destruct (pending_messages s) eqn:E; [|cbn in Hlen; lia].
    now exists s, (Return tt).
  - destruct (pending_messages s) as [|m0 l] eqn:E.
    + now exists s, (Return tt).
    + rewrite <- E.
      set (m := choice (rng k) (pending_messages s) m0).
      assert (Hin : In m (pending_messages s)).
      { apply choice_In. rewrite E. discriminate. }
      destruct (deliver_message_shrinks s m Hin) as (Hs & _ & _).
      destruct (deliver_message m s) as [s1 [e|ev]] eqn:D; cbn in Hs.
      * exists s1, (Raise e). split; [reflexivity|discriminate].
      * apply IH. rewrite E in Hs. cbn in Hs. cbn in Hlen. lia.
Qed.

Lemma deliver_all_loop_empties (fuel : nat) (rng : nat -> nat)
    (k : nat) (s : DistributedSystem) :
  (List.length (pending_messages s) <= fuel)%nat ->
  (forall m, In m (pending_messages s) ->
             registered s (msg_receiver m)) ->
  exists s', deliver_all_loop fuel rng k s = Some (s', Return tt)
             /\ pending_messages s' = [].
Proof.
  revert k s. induction fuel as [|fuel IH]; intros k s Hlen Hreg; cbn.
  - destruct (pending_messages s) eqn:E; [|cbn in Hlen; lia].
    now exists s.
  - destruct (pending_messages s) as [|m0 l] eqn:E.
    + now exists s.
    + rewrite <- E. rewrite <- E in Hreg.
      set (m := choice (rng k) (pending_messages s) m0).
      assert (Hin : In m (pending_messages s)).
      { apply choice_In. rewrite E. discriminate. }
      destruct (deliver_message_shrinks s m Hin) as (Hs & Hi & Hk).
      pose proof (Hreg m Hin) as Hm. unfold registered in Hm.
      pose proof (deliver_message_present s m Hin) as D. cbn in D.
      destruct (dict_get (processes s) (msg_receiver m)) as [c|] eqn:Er;
        [|contradiction].
      rewrite D in Hs, Hi, Hk |- *. cbn in Hs, Hi, Hk.
      apply IH.
      * assert (HL : List.length (pending_messages s)
                      = S (List.length l)) by now rewrite E.
        cbn in Hlen |- *. lia.
      * cbn. intros m' Hm'. unfold registered. cbn.
        apply dict_get_keys. unfold dict_keys in *. rewrite Hk.
        apply dict_get_keys. apply Hreg. now apply Hi.
Qed.


End DeliverAll.

(** C10, as the code runs it.  With fuel for one round per pending message
    the loop of [deliver_all_pending] ends, whatever the draws; when it
    returns, the pending list is empty, and it returns whenever the
    receiver of every pending message is registered.  Each delivery removes
    one message from the pending list and adds none. *)
Theorem deliver_all_pending_empties
    (s : DistributedSystem) (rng : nat -> nat) (fuel : nat) :
  (List.length (pending_messages s) <= fuel)%nat ->
  (exists s' r, deliver_all_pending fuel rng s = Some (s', r)
                /\ (r = Return tt -> pending_messages s' = []))
  /\ ((forall m, In m (pending_messages s) ->
                 registered s (msg_receiver m)) ->
      exists s', deliver_all_pending fuel rng s = Some (s', Return tt)
                 /\ pending_messages s' = [])
  /\ (forall m, In m (pending_messages s) ->
        S (List.length (pending_messages (fst (deliver_message m s))))
          = List.length (pending_messages s)
        /\ incl (pending_messages (fst (deliver_message m s)))
                (pending_messages s)).
Proof.
  intros Hlen. split; [|split].
  - now apply deliver_all_loop_terminates.
  - intros Hreg. now apply deliver_all_loop_empties.
  - intros m Hin. destruct (deliver_message_shrinks s m Hin) as (? & ? & _).
    now split.
Qed.

(** Three messages between two registered processes, drawn in the order
    the stream [1, 3, 5, ...] gives. *)
Lemma deliver_all_pending_empties_witness :
  let s := run [OpSend "A" "B" "x"; OpSend "B" "A" "y"; OpSend "A" "B" "z"]
               (init ["A"; "B"]) in
  (List.length (pending_messages s) <= 3)%nat
  /\ (forall m, In m (pending_messages s) -> registered s (msg_receiver m))
  /\ exists s', deliver_all_pending 3 (fun k => 2 * k + 1)%nat s
                  = Some (s', Return tt)
                /\ pending_messages s' = [].
Proof.
  intros s.
  assert (Hlen : (List.length (pending_messages s) <= 3)%nat)
    by (cbn; lia).
  assert (Hreg : forall m, In m (pending_messages s) ->
                           registered s (msg_receiver m)).
  { intros m Hm. cbn in Hm.
    destruct Hm as [<-|[<-|[<-|[]]]]; discriminate. }
  split; [exact Hlen|]. split; [exact Hreg|].
  exact (proj1 (proj2 (deliver_all_pending_empties s _ 3 Hlen)) Hreg).
Defined.

(** C10, as stated, fails: with two pending messages for an id that is not
    registered, [deliver_all_pending] stops at its first delivery with a
    [KeyError], whatever the draws, and one message stays pending. *)
Lemma deliver_all_pending_stops_on_unregistered_receiver :
  let s := run [OpSend "A" "Z" "x"; OpSend "A" "Z" "y"] (init ["A"]) in
  reachable s
  /\ forall rng : nat -> nat,
       exists s', deliver_all_pending 2 rng s = Some (s', Raise (KeyError "Z"))
                  /\ List.length (pending_messages s') = 1%nat
                  /\ pending_messages s' <> [].
Proof.
  intros s. split.
  - exists ["A"], [OpSend "A" "Z" "x"; OpSend "A" "Z" "y"]. reflexivity.
  - intros rng. subst s.
    match goal with
    | |- context [run ?o ?i] =>
        let v := eval vm_compute in (run o i) in change (run o i) with v
    end.
    unfold deliver_all_pending, deliver_all_loop, choice.
    cbn [pending_messages List.length].
    assert (Hb : (rng 0%nat mod 2 < 2)%nat)
      by (apply Nat.mod_upper_bound; discriminate).
    destruct (rng 0%nat mod 2)%nat as [|[|n]]; [| |lia];
      eexists; (split; [reflexivity|]); split;
        try reflexivity; discriminate.
Qed.

(** * Further properties *)

(** X1.  [local_event] of the system raises, a [KeyError] that leaves the
    system as it was, exactly when the process is not registered.
    Otherwise it advances the clock of that process by one, appends one
    LOCAL event with the new time to its log and returns it; the other
    processes and the two message lists stay as they were. *)
Theorem local_event_checks_process
    (s : DistributedSystem) (pid description : string) :
  let out := local_event pid description s in
  (raises (snd out) <-> dict_get (processes s) pid = None)
  /\ match dict_get (processes s) pid with
     | None => out = (s, Raise (KeyError pid))
     | Some c =>
         exists event,
           snd out = Return event
           /\ ev_event_type event = LOCAL
           /\ ev_timestamp event = time c + 1
           /\ ev_description event = description
           /\ ev_message_id event = None
           /\ dict_get (processes (fst out)) pid
              = Some {| process_id := process_id c; time := time c + 1;
                        events := events c ++ [event] |}
           /\ (forall k, k <> pid ->
                 dict_get (processes (fst out)) k
                 = dict_get (processes s) k)
           /\ pending_messages (fst out) = pending_messages s
           /\ delivered_messages (fst out) = delivered_messages s
     end.
Proof.
  unfold local_event. cbn.
  destruct (dict_get (processes s) pid) as [c|]; cbn.
  - split; [split; [intros [e H]; discriminate|discriminate]|].
    eexists. split; [reflexivity|]. cbn.
    repeat split; auto.
    + apply dict_get_set_eq.
    + intros k N. apply dict_get_set_neq. congruence.
  - split; [|reflexivity]. split; [reflexivity|]. intros _. now eexists.
Qed.

(** X2.  No call registers or removes a process: after every script the
    registry has the keys it had, in the same order; so in a system built
    from a list of ids the registered processes are, each once, the ids of
    that list, whatever was called since. *)
Theorem registry_fixed
    (process_ids : list string) (ops : list op) (s0 : DistributedSystem) :
  dict_keys (processes (run ops s0)) = dict_keys (processes s0)
  /\ NoDup (dict_keys (processes (run ops (init process_ids))))
  /\ (forall k, registered (run ops (init process_ids)) k
                <-> In k process_ids).
Proof.
  split; [apply run_keys|].
  destruct (reachable_keys process_ids ops) as [N I].
  split; [exact N|]. intros k. unfold registered.
  now rewrite dict_get_keys.
Qed.

(** X3.  Logs and the delivered list only grow: after every script the
    clock of a registered process is that of the same process, at a time
    not below, with a log that extends the earlier log by at most one
    event per call; and the delivered list extends the earlier one. *)
Theorem logs_append_only
    (ops : list op) (s : DistributedSystem) (k : string)
    (c : LamportClock) :
  dict_get (processes s) k = Some c ->
  (exists c', dict_get (processes (run ops s)) k = Some c'
              /\ continues c c'
              /\ (List.length (events c')
                  <= List.length (events c) + List.length ops)%nat)
  /\ exists l, delivered_messages (run ops s)
               = (delivered_messages s ++ l)%list.
Proof.
  revert s c. induction ops as [|o ops IH]; intros s c H.
  - cbn. split.
    + exists c. split; [exact H|]. split; [apply continues_refl|lia].
    + exists []. now rewrite app_nil_r.
  - destruct (step_continues s o k c H) as (c1 & H1 & C1 & L1).
    destruct (IH (step s o) c1 H1) as [(c' & H' & C' & L') (l & D)].
    cbn [run fold_left]. fold (run ops (step s o)). split.
    + exists c'. split; [exact H'|].
      split; [now apply continues_trans with c1|cbn; lia].
    + destruct (step_delivered s o) as (l0 & D0).
      exists (l0 ++ l)%list. now rewrite D, D0, app_assoc.
Qed.

(** The clock of A over the scenario of [demo()]. *)
Lemma logs_append_only_witness :
  dict_get (processes demo_system) "A" = Some (Clock.init "A")
  /\ exists c', dict_get (processes (run demo_script demo_system)) "A"
                = Some c'
                /\ continues (Clock.init "A") c'.
Proof.
  assert (H : dict_get (processes demo_system) "A" = Some (Clock.init "A"))
    by reflexivity.
  split; [exact H|].
  destruct (proj1 (logs_append_only demo_script demo_system "A" _ H))
    as (c' & H' & C & _).
  now exists c'.
Defined.

(** ** Messages and their events *)

Section Traces.

Lemma NoDup_map_transfer {A B C : Type} (f : A -> B) (g : A -> C)
    (l : list A) :
  (forall x y, In x l -> In y l -> g x = g y -> f x = f y) ->
  NoDup (map f l) -> NoDup (map g l).
Proof.
  induction l as [|a l IH]; cbn; intros H N; [constructor|].
  inversion N as [|? ? Hn N']; subst. constructor.
  - intros Hin. apply in_map_iff in Hin. destruct Hin as (y & E & Hy).
    apply Hn. apply in_map_iff. exists y. split; [|exact Hy].
    symmetry. apply H; auto.
  - apply IH; auto.
Qed.

Lemma NoDup_map_eq {A B : Type} (f : A -> B) (l : list A) (x y : A) :
  NoDup (map f l) -> In x l -> In y l -> f x = f y -> x = y.
Proof.
  induction l as [|a l IH]; cbn; intros N Hx Hy E; [contradiction|].
  inversion N as [|? ? Hn N']; subst.
  destruct Hx as [->|Hx], Hy as [->|Hy]; auto.
  - exfalso. apply Hn. rewrite E. now apply in_map.
  - exfalso. apply Hn. rewrite <- E. now apply in_map.
Qed.

Lemma ids_distinct (s : DistributedSystem) :
  consistent s -> NoDup (map msg_id (all_messages s)).
Proof.
  intros [_ Hm Hn]. rewrite Forall_forall in Hm.
  apply (NoDup_map_transfer origin msg_id); [|exact Hn].
  intros x y Hx Hy E.
  destruct (Hm x Hx) as (Ix & Px & _). destruct (Hm y Hy) as (Iy & Py & _).
  rewrite Ix, Iy in E. apply message_id_of_inj in E; try lia.
  unfold origin. destruct E as [-> ->]. reflexivity.
Qed.

Lemma find_event_found (mid : string) (ty : EventType)
    (evs : list Event) (e : Event) :
  In e evs -> ev_event_type e = ty -> ev_message_id e = Some mid ->
  exists e', find_event mid ty evs = Some e'.
Proof.
  intros Hin Ht Hm. unfold find_event.
  destruct (find (matches mid ty) evs) as [e'|] eqn:F; [now exists e'|].
  pose proof (find_none _ _ F e Hin) as N. unfold matches in N.
  rewrite Hm, Ht, String.eqb_refl in N. now destruct ty.
Qed.

Lemma sent_in_log_later (d d' : dict LamportClock) (m : Message) :
  (forall k c, dict_get d k = Some c ->
     exists c', dict_get d' k = Some c' /\ continues c c') ->
  sent_in_log d m -> sent_in_log d' m.
Proof.
  intros H (c & e & Hc & He & Ht & Hm).
  destruct (H _ _ Hc) as (c' & Hc' & _ & _ & l & El).
  exists c', e. split; [exact Hc'|]. split; [|now split].
  rewrite El. apply in_or_app. now left.
Qed.

Lemma received_in_log_later (d d' : dict LamportClock) (m : Message) :
  (forall k c, dict_get d k = Some c ->
     exists c', dict_get d' k = Some c' /\ continues c c') ->
  dict_keys d' = dict_keys d ->
  received_in_log d m -> received_in_log d' m.
Proof.
  intros H K R c' Hc'.
  assert (Hr : dict_get d (msg_receiver m) <> None).
  { apply dict_get_keys. rewrite <- K. apply dict_get_keys. congruence. }
  destruct (dict_get d (msg_receiver m)) as [c|] eqn:Hc;
    [|contradiction].
  destruct (R c Hc) as (e & He & Ht & Hm).
  destruct (H _ _ Hc) as (c'' & Hc'' & _ & _ & l & El).
  rewrite Hc' in Hc''. injection Hc'' as <-.
  exists e. split; [|now split].
  rewrite El. apply in_or_app. now left.
Qed.

Lemma step_later (s : DistributedSystem) (o : op) (k : string)
    (c : LamportClock) :
  dict_get (processes s) k = Some c ->
  exists c', dict_get (processes (step s o)) k = Some c'
             /\ continues c c'.
Proof.
  intros H. destruct (step_continues s o k c H) as (c' & H1 & H2 & _).
  now exists c'.
Qed.

Lemma traced_init (pids : list string) : traced (init pids).
Proof. split; constructor. Qed.

Lemma traced_step (s : DistributedSystem) (o : op) :
  consistent s -> traced s -> traced (step s o).
Proof.
  intros C [Hs Hr].
  pose proof (step_later s o) as L. pose proof (step_keys s o) as K.
  assert (Hs' : Forall (sent_in_log (processes (step s o)))
                       (all_messages s)).
  { eapply Forall_impl; [|exact Hs].
    intros m. now apply sent_in_log_later. }
  assert (Hr' : Forall (received_in_log (processes (step s o)))
                       (delivered_messages s)).
  { eapply Forall_impl; [|exact Hr].
    intros m. now apply received_in_log_later. }
  clear Hs Hr. destruct o.
  - rewrite step_local in *. unfold local_event in *.
    destruct (dict_get (processes s) pid); now split.
  - rewrite step_send in *. unfold send_message in *.
    destruct (dict_get (processes s) sender) as [c|] eqn:E;
      [|now split].
    cbn in *. split; cbn; [|exact Hr'].
    unfold all_messages in *. cbn.
    apply Forall_app in Hs'. destruct Hs' as [Hp Hd].
    apply Forall_app. split; [|exact Hd].
    apply Forall_app. split; [exact Hp|]. constructor; [|constructor].
    assert (Hk : process_id c = sender).
    { apply C. now apply dict_get_In. }
    eexists _, _. cbn. rewrite Hk, dict_get_set_eq.
    split; [reflexivity|]. cbn.
    split; [apply in_or_app; right; now left|]. split; reflexivity.
  - rewrite step_deliver in *.
    destruct (in_dec Message_eq_dec message (pending_messages s))
      as [Hin|Hn].
    + pose proof (move_perm message _ (delivered_messages s) Hin) as P.
      rewrite (deliver_message_present s message Hin) in *.
      assert (Hnew : forall d,
                received_in_log d message ->
                Forall (received_in_log d) (delivered_messages s) ->
                Forall (received_in_log d)
                       (delivered_messages s ++ [message])).
      { intros d H1 H2. apply Forall_app. split; [exact H2|].
        now constructor. }
      destruct (dict_get (processes s) (msg_receiver message)) as [c|]
        eqn:E; cbn in *.
      * split; cbn.
        -- unfold all_messages in *. cbn.
           now apply (Permutation_Forall P).
        -- apply Hnew; [|exact Hr'].
           intros c0 Hc0. cbn in Hc0.
           rewrite dict_get_set_eq in Hc0. injection Hc0 as <-.
           eexists. cbn. split; [apply in_or_app; right; now left|].
           now split.
      * split; cbn.
        -- unfold all_messages in *. cbn.
           now apply (Permutation_Forall P).
        -- apply Hnew; [|exact Hr'].
           intros c0 Hc0. cbn in Hc0. congruence.
    + rewrite (deliver_message_absent s message Hn) in *. now split.
Qed.

Lemma reachable_traced (s : DistributedSystem) :
  reachable s -> traced s.
Proof.
  intros (pids & ops & ->).
  assert (H : consistent (init pids) /\ traced (init pids))
    by (split; [apply consistent_init|apply traced_init]).
  revert H. generalize (init pids).
  induction ops as [|o ops IH]; intros s [C T]; cbn; [exact T|].
  apply IH. split; [now apply consistent_step|now apply traced_step].
Qed.

End Traces.

(** X4.  In every reachable state the ids of the messages, pending and
    delivered together, are pairwise distinct: an id names one message. *)
Theorem message_ids_unique (s : DistributedSystem) :
  reachable s ->
  NoDup (map msg_id (all_messages s))
  /\ forall m m', In m (all_messages s) -> In m' (all_messages s) ->
                  msg_id m = msg_id m' -> m = m'.
Proof.
  intros H. apply reachable_consistent in H.
  pose proof (ids_distinct s H) as N. split; [exact N|].
  intros m m' Hm Hm' E. now apply (NoDup_map_eq msg_id (all_messages s)).
Qed.

(** The three messages of [demo()]. *)
Lemma message_ids_unique_witness :
  reachable demo_final /\ NoDup (map msg_id (all_messages demo_final)).
Proof.
  assert (H : reachable demo_final).
  { exists ["A"; "B"; "C"], demo_script. reflexivity. }
  split; [exact H|]. exact (proj1 (message_ids_unique demo_final H)).
Defined.

(** X5.  In every reachable state the searches of [verify_causality] find
    what they look for.  For every message, pending or delivered, the
    sender is registered and the search of its log finds a SEND event,
    stamped with the timestamp of the message.  For every delivered
    message whose receiver is registered, the search of the receiver's log
    finds a RECEIVE event, stamped after the timestamp of the message. *)
Theorem messages_have_their_events (s : DistributedSystem) :
  reachable s ->
  (forall m, In m (all_messages s) ->
     exists sc se,
       dict_get (processes s) (msg_sender m) = Some sc
       /\ find_event (msg_id m) SEND (events sc) = Some se
       /\ ev_timestamp se = msg_timestamp m)
  /\ (forall m rc, In m (delivered_messages s) ->
        dict_get (processes s) (msg_receiver m) = Some rc ->
        exists re,
          find_event (msg_id m) RECEIVE (events rc) = Some re
          /\ msg_timestamp m < ev_timestamp re).
Proof.
  intros H. pose proof (reachable_traced s H) as [Ts Tr].
  apply reachable_consistent in H. pose proof H as [Hc Hm _].
  rewrite Forall_forall in Ts, Tr, Hm. split.
  - intros m Hin.
    destruct (Ts m Hin) as (sc & e & Hsc & He & Hty & Hid).
    destruct (find_event_found _ _ _ _ He Hty Hid) as (se & F).
    exists sc, se. split; [exact Hsc|]. split; [exact F|].
    apply find_event_spec in F. destruct F as (Hse & Mse & Tse).
    destruct (Hc _ _ (dict_get_In _ _ _ Hsc)) as (_ & _ & _ & Fo).
    rewrite Forall_forall in Fo.
    destruct (Fo se Hse) as (_ & Pos & Sh). rewrite Tse, Mse in Sh.
    destruct (Hm m Hin) as (Im & Pm & _).
    injection Sh as Sh. rewrite Im in Sh.
    apply message_id_of_inj in Sh; lia.
  - intros m rc Hin Hrc.
    destruct (Tr m Hin rc Hrc) as (e & He & Hty & Hid).
    destruct (find_event_found _ _ _ _ He Hty Hid) as (re & F).
    exists re. split; [exact F|].
    apply find_event_spec in F. destruct F as (Hre & Mre & Tre).
    destruct (Hc _ _ (dict_get_In _ _ _ Hrc)) as (_ & _ & _ & Fo).
    rewrite Forall_forall in Fo.
    destruct (Fo re Hre) as (_ & Pos & Sh). rewrite Tre in Sh.
    destruct Sh as (p & t & Sh & Ht). rewrite Mre in Sh.
    assert (Hin' : In m (all_messages s))
      by (apply in_or_app; now right).
    destruct (Hm m Hin') as (Im & Pm & _).
    injection Sh as Sh. rewrite Im in Sh.
    apply message_id_of_inj in Sh; lia.
Qed.

(** The state the scenario of [demo()] ends in. *)
Lemma messages_have_their_events_witness :
  reachable demo_final
  /\ forall m, In m (all_messages demo_final) ->
       exists sc se,
         dict_get (processes demo_final) (msg_sender m) = Some sc
         /\ find_event (msg_id m) SEND (events sc) = Some se
         /\ ev_timestamp se = msg_timestamp m.
Proof.
  assert (H : reachable demo_final).
  { exists ["A"; "B"; "C"], demo_script. reflexivity. }
  split; [exact H|].
  exact (proj1 (messages_have_their_events demo_final H)).
Defined.

(** ** One clock, counted *)

Section Counting.

(** Each method appends one event, that of the clock's process, stamped
    with the new time; without [receive] the new time is the next one. *)
Lemma clock_step_shape (c : LamportClock) (o : Clock.op) :
  exists e,
    Clock.step c o = {| process_id := process_id c;
                        time := ev_timestamp e;
                        events := events c ++ [e] |}
    /\ time c < ev_timestamp e
    /\ ev_process_id e = process_id c
    /\ (no_receive o = true -> ev_timestamp e = time c + 1).
Proof.
  destruct o.
  - exists (snd (Clock.local_event c description)).
    cbn. repeat split; lia.
  - exists (fst (snd (Clock.send c receiver content))).
    cbn. repeat split; lia.
  - exists (snd (Clock.receive c message)).
    cbn. repeat split; try lia; discriminate.
Qed.

Lemma clock_run_counts (ops : list Clock.op) (c : LamportClock) :
  time c = last (map ev_timestamp (events c)) 0 ->
  Z.of_nat (List.length (events c)) <= time c ->
  Forall (fun e => ev_process_id e = process_id c) (events c) ->
  let c' := Clock.run ops c in
  time c' = last (map ev_timestamp (events c')) 0
  /\ Z.of_nat (List.length (events c')) <= time c'
  /\ Forall (fun e => ev_process_id e = process_id c) (events c')
  /\ process_id c' = process_id c
  /\ List.length (events c')
     = (List.length (events c) + List.length ops)%nat
  /\ (forallb no_receive ops = true ->
      time c' = time c + Z.of_nat (List.length ops)).
Proof.
  revert c. induction ops as [|o ops IH]; intros c Ht Hl Hp; cbn.
  - split; [exact Ht|]. split; [exact Hl|]. split; [exact Hp|].
    split; [reflexivity|]. split; [lia|]. intros _. lia.
  - destruct (clock_step_shape c o) as (e & E & Hlt & He & Hn).
    fold (Clock.run ops (Clock.step c o)).
    destruct (IH (Clock.step c o)) as (I1 & I2 & I3 & I4 & I5 & I6).
    + rewrite E. cbn. rewrite map_app. cbn [map].
      now rewrite last_last.
    + rewrite E. cbn. rewrite length_app. cbn. lia.
    + rewrite E. cbn. apply Forall_app. split; [exact Hp|].
      now constructor.
    + rewrite E in I1, I2, I3, I4, I5, I6 |- *.
      cbn in I3, I4, I5, I6.
      rewrite length_app in I5. cbn in I5.
      split; [exact I1|]. split; [exact I2|]. split; [exact I3|].
      split; [exact I4|]. split; [lia|].
      intros F. apply andb_true_iff in F. destruct F as [F1 F2].
      rewrite (I6 F2), (Hn F1). lia.
Qed.

End Counting.


(** X7.  A clock that only runs [local_event] and [send] counts its
    events: after [n] such calls on a new clock the time is [n] and the
    log has [n] events. *)
Theorem clock_counts_events (pid : string) (ops : list Clock.op) :
  forallb no_receive ops = true ->
  let c := Clock.run ops (Clock.init pid) in
  time c = Z.of_nat (List.length ops)
  /\ time c = Z.of_nat (List.length (events c)).
Proof.
  intros F c.
  assert (H : time (Clock.init pid)
              = last (map ev_timestamp (events (Clock.init pid))) 0)
    by reflexivity.
  destruct (clock_run_counts ops (Clock.init pid) H)
    as (_ & _ & _ & _ & H5 & H6); [cbn; lia|constructor|].
  cbn in H5, H6. subst c. rewrite H5, (H6 F). split; reflexivity.
Qed.

(** Two local events and a send. *)
Lemma clock_counts_events_witness :
  let ops := [Clock.OpLocal "a"; Clock.OpSend "B" "x"; Clock.OpLocal "b"] in
  forallb no_receive ops = true
  /\ time (Clock.run ops (Clock.init "A")) = 3.
Proof.
  intros ops.
  assert (F : forallb no_receive ops = true) by reflexivity.
  split; [exact F|]. exact (proj1 (clock_counts_events "A" ops F)).
Defined.

(** ** Delivering everything, counted *)

Section DeliverAllCounted.

Lemma deliver_all_loop_delivers (fuel : nat) (rng : nat -> nat)
    (k : nat) (s : DistributedSystem) :
  (List.length (pending_messages s) <= fuel)%nat ->
  (forall m, In m (pending_messages s) ->
             registered s (msg_receiver m)) ->
  exists s', deliver_all_loop fuel rng k s = Some (s', Return tt)
             /\ pending_messages s' = []
             /\ Permutation (delivered_messages s')
                  (delivered_messages s ++ pending_messages s)
             /\ dict_keys (processes s') = dict_keys (processes s).
Proof.
  revert k s. induction fuel as [|fuel IH]; intros k s Hlen Hreg; cbn.
  - destruct (pending_messages s) eqn:E; [|cbn in Hlen; lia].
    exists s. rewrite app_nil_r. now repeat split.
  - destruct (pending_messages s) as [|m0 l] eqn:E.
    + exists s. rewrite app_nil_r. now repeat split.
    + rewrite <- E. rewrite <- E in Hreg.
      set (m := choice (rng k) (pending_messages s) m0).
      assert (Hin : In m (pending_messages s)).
      { apply choice_In. rewrite E. discriminate. }
      destruct (deliver_message_shrinks s m Hin) as (Hs & Hi & Hk).
      pose proof (Hreg m Hin) as Hm. unfold registered in Hm.
      pose proof (deliver_message_present s m Hin) as D. cbn in D.
      destruct (dict_get (processes s) (msg_receiver m)) as [c|] eqn:Er;
        [|contradiction].
      rewrite D in Hs, Hi, Hk |- *. cbn in Hs, Hi, Hk.
      match goal with
      | |- exists s', deliver_all_loop fuel rng (S k) ?s1 = _ /\ _ =>
          destruct (IH (S k) s1) as (s' & R & P0 & P1 & P2)
      end.
      * assert (HL : List.length (pending_messages s)
                      = S (List.length l)) by now rewrite E.
        cbn in Hlen |- *. lia.
      * cbn. intros m' Hm'. unfold registered. cbn.
        apply dict_get_keys. unfold dict_keys in *. rewrite Hk.
        apply dict_get_keys. apply Hreg. now apply Hi.
      * exists s'. split; [exact R|]. split; [exact P0|].
        cbn in P1, P2. split; [|now rewrite P2].
        rewrite P1, <- app_assoc. apply Permutation_app_head.
        cbn. symmetry. now apply list_remove_perm.
Qed.

Lemma deliver_all_loop_more_fuel (fuel : nat) (rng : nat -> nat)
    (k : nat) (s : DistributedSystem)
    (r : DistributedSystem * result unit) :
  deliver_all_loop fuel rng k s = Some r ->
  deliver_all_loop (S fuel) rng k s = Some r.
Proof.
  revert k s. induction fuel as [|fuel IH]; intros k s.
  - cbn. now destruct (pending_messages s).
  - intros H. cbn in H.
    change (deliver_all_loop (S (S fuel)) rng k s)
      with (match pending_messages s with
            | [] => Some (s, Return tt)
            | m0 :: _ =>
                let message := choice (rng k) (pending_messages s) m0 in
                match deliver_message message s with
                | (s', Raise e) => Some (s', Raise e)
                | (s', Return _) => deliver_all_loop (S fuel) rng (S k) s'
                end
            end).
    destruct (pending_messages s) as [|m0 l]; [exact H|].
    cbn zeta in *.
    destruct (deliver_message (choice (rng k) (m0 :: l) m0) s)
      as [s' [e|ev]]; [exact H|].
    now apply IH.
Qed.

Lemma deliver_all_loop_fuel (fuel fuel' : nat) (rng : nat -> nat)
    (k : nat) (s : DistributedSystem)
    (r : DistributedSystem * result unit) :
  (fuel <= fuel')%nat ->
  deliver_all_loop fuel rng k s = Some r ->
  deliver_all_loop fuel' rng k s = Some r.
Proof.
  induction 1 as [|n Hle IH]; intros H; [exact H|].
  now apply deliver_all_loop_more_fuel, IH.
Qed.

End DeliverAllCounted.

(** X8.  When the receiver of every pending message is registered,
    [deliver_all_pending] delivers each pending message once, whatever
    the draws: it returns, the pending list is empty, the delivered list
    holds what it held and what was pending, and the registry is as it
    was.  Fuel beyond one round per pending message changes nothing. *)
Theorem deliver_all_pending_delivers_each_once
    (s : DistributedSystem) (rng : nat -> nat) (fuel fuel' : nat) :
  (List.length (pending_messages s) <= fuel)%nat ->
  (fuel <= fuel')%nat ->
  (forall m, In m (pending_messages s) -> registered s (msg_receiver m)) ->
  exists s', deliver_all_pending fuel rng s = Some (s', Return tt)
             /\ deliver_all_pending fuel' rng s = Some (s', Return tt)
             /\ pending_messages s' = []
             /\ Permutation (delivered_messages s')
                  (delivered_messages s ++ pending_messages s)
             /\ dict_keys (processes s') = dict_keys (processes s).
Proof.
  intros Hlen Hle Hreg.
  destruct (deliver_all_loop_delivers fuel rng 0 s Hlen Hreg)
    as (s' & R & P0 & P1 & P2).
  exists s'. split; [exact R|].
  split; [now apply deliver_all_loop_fuel with fuel|]. now repeat split.
Qed.

(** Three messages between two registered processes. *)
Lemma deliver_all_pending_delivers_each_once_witness :
  let s := run [OpSend "A" "B" "x"; OpSend "B" "A" "y"; OpSend "A" "B" "z"]
               (init ["A"; "B"]) in
  (List.length (pending_messages s) <= 3)%nat /\ (3 <= 5)%nat
  /\ (forall m, In m (pending_messages s) -> registered s (msg_receiver m))
  /\ exists s', deliver_all_pending 3 (fun k => k) s = Some (s', Return tt)
                /\ Permutation (delivered_messages s')
                     (delivered_messages s ++ pending_messages s).
Proof.
  intros s.
  assert (Hlen : (List.length (pending_messages s) <= 3)%nat)
    by (cbn; lia).
  assert (Hle : (3 <= 5)%nat) by lia.
  assert (Hreg : forall m, In m (pending_messages s) ->
                           registered s (msg_receiver m)).
  { intros m Hm. cbn in Hm.
    destruct Hm as [<-|[<-|[<-|[]]]]; discriminate. }
  split; [exact Hlen|]. split; [exact Hle|]. split; [exact Hreg|].
  destruct (deliver_all_pending_delivers_each_once
              s (fun k => k) 3 5 Hlen Hle Hreg)
    as (s' & R & _ & _ & P & _).
  now exists s'.
Defined.

(** ** Stamps *)

Section Stamps.

Lemma StronglySorted_lt_NoDup (l : list Z) :
  StronglySorted Z.lt l -> NoDup l.
Proof.
  induction 1 as [|a l Hs IH Hf]; constructor; [|exact IH].
  intros Hin. rewrite Forall_forall in Hf. specialize (Hf a Hin). lia.
Qed.

Lemma clock_stamps (k : string) (c : LamportClock) :
  clock_ok k c -> NoDup (map stamp (events c)).
Proof.
  intros (_ & _ & [Ho _] & _).
  apply (NoDup_map_transfer ev_timestamp stamp).
  - intros x y _ _ E. unfold stamp in E. congruence.
  - now apply StronglySorted_lt_NoDup.
Qed.

Lemma all_events_stamps (d : dict LamportClock) :
  NoDup (dict_keys d) ->
  (forall k c, In (k, c) d -> clock_ok k c) ->
  NoDup (map stamp (flat_map events (dict_values d))).
Proof.
  unfold dict_keys, dict_values.
  induction d as [|[k c] d IH]; cbn; intros N H; [constructor|].
  inversion N as [|? ? Hk N']; subst.
  rewrite map_app. apply NoDup_app.
  - apply (clock_stamps k). apply H. now left.
  - apply IH; auto.
  - intros a Ha Hb.
    apply in_map_iff in Ha. destruct Ha as (e & <- & He).
    apply in_map_iff in Hb. destruct Hb as (e' & E & He').
    apply in_flat_map in He'. destruct He' as (c' & Hc' & He').
    apply in_map_iff in Hc'. destruct Hc' as ([k' c''] & Ec & Hin).
    cbn in Ec. subst c''.
    destruct (H k c (or_introl eq_refl)) as (_ & _ & _ & F).
    destruct (H k' c' (or_intror Hin)) as (_ & _ & _ & F').
    rewrite Forall_forall in F, F'.
    destruct (F e He) as (P & _). destruct (F' e' He') as (P' & _).
    unfold stamp in E. injection E as _ E.
    apply Hk. apply in_map_iff. exists (k', c'). split; [|exact Hin].
    cbn. congruence.
Qed.

Lemma history_stamps (s : DistributedSystem) :
  consistent s -> NoDup (dict_keys (processes s)) ->
  NoDup (map stamp (get_global_history s)).
Proof.
  intros C N.
  apply (Permutation_NoDup
           (Permutation_map stamp (Permutation_sym (history_perm s)))).
  apply all_events_stamps; [exact N|]. apply C.
Qed.

Lemma reachable_NoDup_keys (s : DistributedSystem) :
  reachable s -> NoDup (dict_keys (processes s)).
Proof. intros (pids & ops & ->). apply reachable_keys. Qed.

End Stamps.

(** X9.  In every reachable state no two events of the global history
    have the same [(timestamp, process_id)]: the history holds every
    logged event, and an event in it is known by its stamp, so the tie
    break of the sort never has to fall back on the order of the input. *)
Theorem history_stamps_unique (s : DistributedSystem) :
  reachable s ->
  NoDup (map stamp (get_global_history s))
  /\ (forall e e', In e (get_global_history s) ->
                   In e' (get_global_history s) ->
                   stamp e = stamp e' -> e = e')
  /\ (forall k c e, In (k, c) (processes s) -> In e (events c) ->
                    In e (get_global_history s)).
Proof.
  intros H.
  pose proof (history_stamps s (reachable_consistent s H)
                (reachable_NoDup_keys s H)) as N.
  split; [exact N|]. split.
  - intros e e' He He' E. now apply (NoDup_map_eq stamp _ e e' N).
  - intros k c e. apply history_In.
Qed.

(** The eleven events of the scenario of [demo()]. *)
Lemma history_stamps_unique_witness :
  reachable demo_final
  /\ NoDup (map stamp (get_global_history demo_final)).
Proof.
  assert (H : reachable demo_final).
  { exists ["A"; "B"; "C"], demo_script. reflexivity. }
  split; [exact H|]. exact (proj1 (history_stamps_unique demo_final H)).
Defined.

(** ** The timeline *)

Section TimelineFacts.

Import Timeline.

Lemma insert_perm_gen {A : Type} (ltb : A -> A -> bool) (x : A)
    (l : list A) :
  Permutation (insert ltb x l) (x :: l).
Proof.
  induction l as [|y l IH]; cbn; [reflexivity|].
  destruct (ltb x y); [reflexivity|].
  rewrite IH. apply perm_swap.
Qed.

Lemma sorted_perm_gen {A : Type} (ltb : A -> A -> bool) (l : list A) :
  Permutation (sorted ltb l) l.
Proof.
  unfold sorted.
  assert (H : forall acc,
            Permutation (fold_left (fun acc x => insert ltb x acc) l acc)
                        (acc ++ l)).
  { induction l as [|x l IH]; intros acc; cbn.
    - now rewrite app_nil_r.
    - rewrite IH, insert_perm_gen. now rewrite <- Permutation_middle. }
  apply (H []).
Qed.

Lemma fold_max_ge (l : list Z) (a : Z) :
  a <= fold_left Z.max l a
  /\ forall x, In x l -> x <= fold_left Z.max l a.
Proof.
  revert a. induction l as [|y l IH]; intros a; cbn.
  - split; [lia|tauto].
  - destruct (IH (Z.max a y)) as [H1 H2]. split; [lia|].
    intros x [->|Hx]; [lia|auto].
Qed.

Lemma max_time_ge (h : list Event) (e : Event) :
  In e h -> ev_timestamp e <= max_time h.
Proof.
  destruct h as [|a h]; cbn; [tauto|].
  destruct (fold_max_ge (map ev_timestamp h) (ev_timestamp a))
    as [H1 H2].
  intros [->|He]; [exact H1|]. apply H2. now apply in_map.
Qed.

Lemma range1_nth (stop t : Z) :
  1 <= t <= stop ->
  nth_error (range1 stop) (Z.to_nat (t - 1)) = Some t.
Proof.
  intros H. unfold range1. rewrite nth_error_map.
  assert (L : (Z.to_nat (t - 1) < List.length (seq 0 (Z.to_nat stop)))%nat)
    by (rewrite length_seq; lia).
  rewrite (nth_error_nth' _ O L), seq_nth by lia.
  cbn. f_equal. lia.
Qed.

Lemma row_cells (h : list Event) (pids : list string) (t : Z) :
  row h pids t
  = (" " ++ right_int t 2 ++ "  |")
      ++ fold_right append "" (map (cell h t) pids).
Proof.
  unfold row. generalize (" " ++ right_int t 2 ++ "  |") as r.
  induction pids as [|p pids IH]; intros r; cbn.
  - clear. induction r as [|a r IH]; cbn; [reflexivity|now rewrite <- IH].
  - rewrite IH. clear.
    induction r as [|a r IH]; cbn; [reflexivity|now rewrite IH].
Qed.

Lemma NoDup_keys_In (d : dict LamportClock) (k : string)
    (c c' : LamportClock) :
  NoDup (dict_keys d) -> In (k, c) d -> In (k, c') d -> c = c'.
Proof.
  unfold dict_keys. induction d as [|[k0 c0] d IH]; cbn; [tauto|].
  intros N H H'. inversion N as [|? ? Hk N']; subst.
  destruct H as [E|H], H' as [E'|H'].
  - congruence.
  - exfalso. apply Hk. apply in_map_iff. exists (k, c').
    split; [cbn; congruence|exact H'].
  - exfalso. apply Hk. apply in_map_iff. exists (k, c).
    split; [cbn; congruence|exact H].
  - now apply IH.
Qed.

Lemma events_at_spec (h : list Event) (t : Z) (pid : string)
    (x : Event) :
  In x (events_at h t pid)
  <-> In x h /\ ev_timestamp x = t /\ ev_process_id x = pid.
Proof.
  unfold events_at. rewrite filter_In, andb_true_iff.
  now rewrite Z.eqb_eq, String.eqb_eq.
Qed.

Lemma history_owner (s : DistributedSystem) (k : string)
    (c : LamportClock) (x : Event) :
  consistent s -> NoDup (dict_keys (processes s)) ->
  In (k, c) (processes s) -> In x (get_global_history s) ->
  ev_process_id x = k -> In x (events c).
Proof.
  intros C N Hin Hx Hp.
  apply (Permutation_in _ (history_perm s)) in Hx.
  apply all_events_In in Hx. destruct Hx as (k' & c' & Hin' & Hx).
  destruct (clocks_ok s C k' c' Hin') as (_ & _ & _ & F).
  rewrite Forall_forall in F. destruct (F x Hx) as (P & _).
  assert (E : k' = k) by congruence. rewrite E in Hin'.
  now rewrite (NoDup_keys_In _ _ _ _ N Hin Hin').
Qed.

Lemma cell_of_event (s : DistributedSystem) (k : string)
    (c : LamportClock) (e : Event) :
  consistent s -> NoDup (dict_keys (processes s)) ->
  In (k, c) (processes s) -> In e (events c) ->
  cell (get_global_history s) (ev_timestamp e) k
  = " " ++ center (symbol (ev_event_type e)) 12 ++ " |".
Proof.
  intros C N Hin He.
  pose proof (history_In s k c e Hin He) as Hh.
  destruct (clocks_ok s C k c Hin) as (_ & _ & _ & F).
  rewrite Forall_forall in F. destruct (F e He) as (Pe & _).
  assert (Hat : In e (events_at (get_global_history s)
                        (ev_timestamp e) k))
    by now apply events_at_spec.
  unfold cell.
  destruct (events_at (get_global_history s) (ev_timestamp e) k)
    as [|x rest] eqn:E; [contradiction|].
  assert (Hx : In x (events_at (get_global_history s)
                       (ev_timestamp e) k))
    by (rewrite E; now left).
  apply events_at_spec in Hx. destruct Hx as (Hxh & Hxt & Hxp).
  assert (x = e).
  { apply (NoDup_map_eq stamp (get_global_history s));
      [now apply history_stamps| | |]; auto.
    unfold stamp. congruence. }
  now subst x.
Qed.

Lemma cell_blank (s : DistributedSystem) (k : string)
    (c : LamportClock) (t : Z) :
  consistent s -> NoDup (dict_keys (processes s)) ->
  In (k, c) (processes s) ->
  (forall e, In e (events c) -> ev_timestamp e <> t) ->
  cell (get_global_history s) t k = " " ++ center "" 12 ++ " |".
Proof.
  intros C N Hin Hno. unfold cell.
  destruct (events_at (get_global_history s) t k) as [|x rest] eqn:E;
    [reflexivity|].
  assert (Hx : In x (events_at (get_global_history s) t k))
    by (rewrite E; now left).
  apply events_at_spec in Hx. destruct Hx as (Hxh & Hxt & Hxp).
  exfalso. apply (Hno x); [|exact Hxt].
  now apply (history_owner s k c x).
Qed.

Lemma timeline_row_nth (s : DistributedSystem) (t : Z) :
  1 <= t <= max_time (get_global_history s) ->
  nth_error (print_timeline s) (4 + Z.to_nat t)
  = Some (row (get_global_history s)
              (sorted String.ltb (dict_keys (processes s))) t).
Proof.
  intros H. unfold print_timeline.
  rewrite nth_error_app2 by (cbn; lia).
  cbn [List.length].
  replace (4 + Z.to_nat t - 5)%nat with (Z.to_nat (t - 1)) by lia.
  rewrite nth_error_app1.
  - rewrite nth_error_map, (range1_nth _ t H). reflexivity.
  - rewrite length_map. unfold range1.
    rewrite length_map, length_seq. lia.
Qed.

End TimelineFacts.

(** X10.  In every reachable state the timeline [print_timeline] prints
    shows every event: each registered process has a column, the row of an
    event's timestamp is the line printed at place [4 + timestamp], a row
    is its time followed by one cell per column, and the cell of a process
    in that row is the centred symbol of the event's type.  A cell is
    blank when the process has no event at the time of the row. *)
Theorem timeline_shows_every_event (s : DistributedSystem) :
  reachable s ->
  let h := get_global_history s in
  let columns := sorted String.ltb (dict_keys (processes s)) in
  (forall t, 1 <= t <= Timeline.max_time h ->
     nth_error (Timeline.print_timeline s) (4 + Z.to_nat t)
     = Some (Timeline.row h columns t)
     /\ Timeline.row h columns t
        = (" " ++ Timeline.right_int t 2 ++ "  |")
            ++ fold_right append "" (map (Timeline.cell h t) columns))
  /\ forall k c, In (k, c) (processes s) ->
       In k columns
       /\ (forall e, In e (events c) ->
             1 <= ev_timestamp e <= Timeline.max_time h
             /\ Timeline.cell h (ev_timestamp e) k
                = " " ++ Timeline.center
                           (Timeline.symbol (ev_event_type e)) 12 ++ " |")
       /\ (forall t, (forall e, In e (events c) -> ev_timestamp e <> t) ->
             Timeline.cell h t k = " " ++ Timeline.center "" 12 ++ " |").
Proof.
  intros H h columns.
  pose proof (reachable_consistent s H) as C.
  pose proof (reachable_NoDup_keys s H) as N.
  split.
  - intros t Ht. split; [now apply timeline_row_nth|apply row_cells].
  - intros k c Hin. split; [|split].
    + apply (Permutation_in _
               (Permutation_sym (sorted_perm_gen String.ltb _))).
      apply in_map_iff. now exists (k, c).
    + intros e He. split; [|now apply (cell_of_event s k c e)].
      split.
      * destruct (clocks_ok s C k c Hin) as (_ & _ & _ & F).
        rewrite Forall_forall in F. destruct (F e He) as (_ & P & _). lia.
      * apply max_time_ge. now apply (history_In s k c e).
    + intros t Hno. now apply (cell_blank s k c t).
Qed.

(** The timeline of the scenario of [demo()]: B's RECEIVE at time 3. *)
Lemma timeline_shows_every_event_witness :
  reachable demo_final
  /\ nth_error (Timeline.print_timeline demo_final) 7
     = Some (Timeline.row (get_global_history demo_final)
               (sorted String.ltb (dict_keys (processes demo_final))) 3).
Proof.
  assert (H : reachable demo_final).
  { exists ["A"; "B"; "C"], demo_script. reflexivity. }
  split; [exact H|].
  refine (proj1 (proj1 (timeline_shows_every_event demo_final H) 3 _)).
  vm_compute. split; discriminate.
Defined.

(** ** The random simulation *)

Section SimulationFacts.

Import Simulation.













End SimulationFacts.





Section SingleProcess.

Import Simulation.








End SingleProcess.



(** ** Sending, then delivering *)

Section RoundTrip.

Lemma list_remove_last (m : Message) (l : list Message) :
  ~ In m l -> list_remove Message_eqb m (l ++ [m]) = l.
Proof.
  induction l as [|y l IH]; cbn; intros H.
  - now rewrite Message_eqb_refl.
  - destruct (Message_eqb y m) eqn:E.
    + apply Message_eqb_eq in E. tauto.
    + rewrite IH; [reflexivity|tauto].
Qed.

(** What [send_message] followed by [deliver_message] of its message
    does, from a reachable state with both processes registered. *)
Lemma send_deliver (s : DistributedSystem) (a b x : string)
    (c : LamportClock) :
  reachable s -> dict_get (processes s) a = Some c -> registered s b ->
  let m := snd (snd (Clock.send c b x)) in
  let s1 := fst (send_message a b x s) in
  exists rc,
    send_message a b x s = (s1, Return m)
    /\ dict_get (processes s1) b = Some rc
    /\ deliver_message m s1
       = ({| processes :=
               dict_set (processes s1) b (fst (Clock.receive rc m));
             pending_messages := pending_messages s;
             delivered_messages := delivered_messages s ++ [m] |},
          Return (snd (Clock.receive rc m)))
    /\ process_id c = a /\ process_id rc = b
    /\ (a = b -> rc = fst (Clock.send c b x))
    /\ (a <> b -> dict_get (processes s) b = Some rc).
Proof.
  intros Hr Ha Hb m s1.
  assert (Hs1 : send_message a b x s
                = ({| processes :=
                        dict_set (processes s) a
                                 (fst (Clock.send c b x));
                      pending_messages := pending_messages s ++ [m];
                      delivered_messages := delivered_messages s |},
                   Return m)).
  { unfold send_message. now rewrite Ha. }
  assert (Es1 : s1 = fst (send_message a b x s)) by reflexivity.
  rewrite Hs1 in Es1. cbn in Es1.
  assert (R1 : reachable s1).
  { subst s1. rewrite <- step_send. now apply reachable_step. }
  pose proof (reachable_consistent s1 R1) as C1.
  pose proof (reachable_consistent s Hr) as C.
  assert (Hpa : process_id c = a).
  { apply (clocks_ok s C). now apply dict_get_In. }
  assert (Hrb : registered s1 b).
  { unfold registered in *. rewrite Es1. cbn.
    apply (registered_set (processes s) a b); [congruence|exact Hb]. }
  unfold registered in Hrb.
  destruct (dict_get (processes s1) b) as [rc|] eqn:Erc;
    [|contradiction].
  exists rc. split; [now rewrite Es1|]. split; [reflexivity|].
  assert (Hnew : ~ In m (pending_messages s)).
  { pose proof (pending_NoDup s1 C1) as N. rewrite Es1 in N. cbn in N.
    apply NoDup_remove_2 in N. now rewrite app_nil_r in N. }
  assert (Hin : In m (pending_messages s1)).
  { rewrite Es1. cbn. apply in_or_app. right. now left. }
  split; [|split; [exact Hpa|split; [|split]]].
  - rewrite (deliver_message_present s1 m Hin).
    cbn [msg_receiver m Clock.send snd]. rewrite Erc.
    unfold with_processes. cbn [processes pending_messages
                                delivered_messages].
    rewrite Es1 at 2 3. cbn [pending_messages delivered_messages].
    now rewrite list_remove_last.
  - apply (clocks_ok s1 C1). now apply dict_get_In.
  - intros <-. rewrite Es1 in Erc. cbn in Erc.
    rewrite dict_get_set_eq in Erc. now injection Erc as <-.
  - intros N. rewrite Es1 in Erc. cbn in Erc.
    now rewrite dict_get_set_neq in Erc.
Qed.

End RoundTrip.

(** X14.  From a reachable state, sending a message between two
    registered processes and delivering it at once succeeds: the pending
    list is again what it was, the delivered list has the message at its
    end, and the RECEIVE event returned is the receiver's, names the
    message and is stamped after the timestamp of the message. *)
Theorem send_then_deliver
    (s : DistributedSystem) (sender receiver content : string) :
  reachable s -> registered s sender -> registered s receiver ->
  exists m e s',
    (m <- send_message sender receiver content ;;
     e <- deliver_message m ;; ret (m, e)) s = (s', Return (m, e))
    /\ pending_messages s' = pending_messages s
    /\ delivered_messages s' = (delivered_messages s ++ [m])%list
    /\ msg_sender m = sender /\ msg_receiver m = receiver
    /\ msg_content m = content
    /\ ev_event_type e = RECEIVE
    /\ ev_process_id e = receiver
    /\ ev_message_id e = Some (msg_id m)
    /\ msg_timestamp m < ev_timestamp e.
Proof.
  intros Hr Ha Hb. unfold registered in Ha.
  destruct (dict_get (processes s) sender) as [c|] eqn:Ec;
    [|contradiction].
  destruct (send_deliver s sender receiver content c Hr Ec Hb)
    as (rc & E1 & _ & E2 & Hpa & Hpb & _).
  eexists _, _, _. unfold bind, ret. rewrite E1, E2.
  split; [reflexivity|]. cbn. repeat split; auto. lia.
Qed.

(** A message from A to B in the system of [demo()]. *)
Lemma send_then_deliver_witness :
  reachable demo_system /\ registered demo_system "A"
  /\ registered demo_system "B"
  /\ exists m e s',
       (m <- send_message "A" "B" "x" ;;
        e <- deliver_message m ;; ret (m, e)) demo_system
       = (s', Return (m, e))
       /\ msg_timestamp m < ev_timestamp e.
Proof.
  assert (H1 : reachable demo_system)
    by (exists ["A"; "B"; "C"], []; reflexivity).
  assert (H2 : registered demo_system "A") by discriminate.
  assert (H3 : registered demo_system "B") by discriminate.
  split; [exact H1|]. split; [exact H2|]. split; [exact H3|].
  destruct (send_then_deliver demo_system "A" "B" "x" H1 H2 H3)
    as (m & e & s' & E & P).
  exists m, e, s'. split; [exact E|]. apply P.
Defined.

(** X15.  A process that sends a message to itself and has it delivered
    advances its clock by two: it logs a SEND event at the next time and a
    RECEIVE event at the time after, and no other process changes. *)
Theorem loopback_advances_by_two
    (s : DistributedSystem) (pid content : string) (c : LamportClock) :
  reachable s -> dict_get (processes s) pid = Some c ->
  exists m e s' se,
    (m <- send_message pid pid content ;;
     e <- deliver_message m ;; ret (m, e)) s = (s', Return (m, e))
    /\ dict_get (processes s') pid
       = Some {| process_id := pid; time := time c + 2;
                 events := events c ++ [se; e] |}
    /\ ev_event_type se = SEND /\ ev_timestamp se = time c + 1
    /\ ev_event_type e = RECEIVE /\ ev_timestamp e = time c + 2
    /\ ev_message_id se = Some (msg_id m)
    /\ ev_message_id e = Some (msg_id m)
    /\ (forall k, k <> pid ->
          dict_get (processes s') k = dict_get (processes s) k).
Proof.
  intros Hr Ec.
  assert (Hb : registered s pid) by (unfold registered; congruence).
  destruct (send_deliver s pid pid content c Hr Ec Hb)
    as (rc & E1 & _ & E2 & Hpa & _ & Hrc & _).
  specialize (Hrc eq_refl). subst rc.
  eexists _, _, _, (fst (snd (Clock.send c pid content))).
  unfold bind, ret. rewrite E1, E2.
  split; [reflexivity|]. cbn [fst processes].
  split; [|split; [reflexivity|split; [reflexivity|split;
            [reflexivity|split; [|split; [reflexivity|split;
              [reflexivity|]]]]]]].
  - rewrite dict_get_set_eq. cbn. rewrite Hpa. f_equal. f_equal.
    + lia.
    + now rewrite <- app_assoc.
  - cbn. lia.
  - intros k N. rewrite dict_get_set_neq by congruence.
    unfold send_message. rewrite Ec. cbn.
    apply dict_get_set_neq. congruence.
Qed.

(** Process A of [demo()], to itself. *)
Lemma loopback_advances_by_two_witness :
  reachable demo_system
  /\ dict_get (processes demo_system) "A" = Some (Clock.init "A")
  /\ exists m e s',
       (m <- send_message "A" "A" "x" ;;
        e <- deliver_message m ;; ret (m, e)) demo_system
       = (s', Return (m, e))
       /\ ev_timestamp e = 2.
Proof.
  assert (H1 : reachable demo_system)
    by (exists ["A"; "B"; "C"], []; reflexivity).
  assert (H2 : dict_get (processes demo_system) "A"
               = Some (Clock.init "A")) by reflexivity.
  split; [exact H1|]. split; [exact H2|].
  destruct (loopback_advances_by_two demo_system "A" "x" _ H1 H2)
    as (m & e & s' & se & E & _ & _ & _ & _ & T & _).
  exists m, e, s'. split; [exact E|exact T].
Defined.
